(** * External sort of a text file: split into sorted blocks, then merge

    A shallow embedding of [extsort.py]: [FileSplitter.split],
    [FileMerger.merge], [NWayMerge.select], [FilesArray] and
    [ExternalSort.sort], followed by the properties of the program.

    Conventions of the embedding.
    - A Python [str] is a [string]; the record terminator is the
      character of code 10.
    - A Python [int] is a [Z]; [/] on two ints is floor division
      ([Z.div]), [range n] is [seqZ 0 n].
    - A [dict] keyed by ints is a [gmap Z _], a [set] of ints a [gset Z];
      [d[k]] on a missing key raises [KeyError].
    - A file opened for reading is the list of the lines it still holds
      (what successive [readline] calls return); a file opened for
      writing is the text written so far.
    - The block files [block_0.dat], [block_1.dat], ... are the list of
      their contents, in creation order: [block_filenames].  The
      compression layer of the [BZ2] subclasses does not change the text
      that is read or written and is left out; the size on disk of the
      compressed input file, which [get_number_blocks] reads, is a
      datum of its own, [st_size].
    - An int handed to a call that wants a C [long] or a C [int] has to
      fit 64 or 32 bits: otherwise the call raises [OverflowError]. *)

From Stdlib Require Import ZArith Ascii String Sorted.
From stdpp Require Import base tactics option list list_numbers sorting
  gmap strings fin_maps fin_sets.

Local Open Scope Z_scope.

(** ** Outcomes of a Python computation *)

Inductive exn : Type :=
  | KeyError
  | TypeError
  | ZeroDivisionError
  | OverflowError.

(** [Unfinished] is not a Python outcome: a loop of the model was given
    too little fuel.  [split] and [merge] start their loops with enough
    of it, as is proved of them below. *)
Inductive res (A : Type) : Type :=
  | Ok (a : A)
  | Raise (e : exn)
  | Unfinished.
Arguments Ok {A} a.
Arguments Raise {A} e.
Arguments Unfinished {A}.

Definition bind {A B} (m : res A) (k : A → res B) : res B :=
  match m with
  | Ok a => k a
  | Raise e => Raise e
  | Unfinished => Unfinished
  end.

Notation "x ←! m ; k" := (bind m (λ x, k))
  (at level 20, m at level 100, k at level 200, right associativity,
   format "x  ←!  m ;  '/' k").
Notation "' p ←! m ; k" := (bind m (λ x, let 'p := x in k))
  (at level 20, p pattern, m at level 100, k at level 200,
   right associativity).

(** [d[k]] *)
Definition getitem {V} (d : gmap Z V) (k : Z) : res V :=
  match d !! k with
  | Some v => Ok v
  | None => Raise KeyError
  end.

(** [for i in is: s = body s i] *)
Fixpoint for_each {S} (body : S → Z → res S) (idx : list Z) (s : S) : res S :=
  match idx with
  | [] => Ok s
  | i :: idx => s' ←! body s i; for_each body idx s'
  end.

(** The ints that fit a C [long] and a C [int]. *)
Definition c_long (n : Z) : bool := (- 2 ^ 63 <=? n) && (n <? 2 ^ 63).
Definition c_int (n : Z) : bool := (- 2 ^ 31 <=? n) && (n <? 2 ^ 31).

(** ** Text, lines and files *)

Definition nl : ascii := ascii_of_nat 10.

(** [len s] *)
Definition len (s : string) : Z := Z.of_nat (String.length s).

(** [''.join(lines)] *)
Definition join (lines : list string) : string := String.concat "" lines.

(** The lines of a text, each with its terminator; only the last one may
    lack it. *)
Fixpoint lines_of (s : string) : list string :=
  match s with
  | EmptyString => []
  | String c rest =>
      if Ascii.eqb c nl then String c EmptyString :: lines_of rest
      else match lines_of rest with
           | [] => [String c EmptyString]
           | l :: ls => String c l :: ls
           end
  end.

(** A file open for reading. *)
Abbreviation rfile := (list string).

Definition open_r (content : string) : rfile := lines_of content.

(** [file.readline()]: the next line, or [''] at the end of the file. *)
Definition readline (f : rfile) : string * rfile :=
  match f with
  | [] => (EmptyString, [])
  | l :: f' => (l, f')
  end.

(** The lines that [readlines] takes from a file of which it has
    already read [total] characters: whole lines, until their total
    size exceeds the hint; a hint that is not positive reads to the end
    of the file. *)
Fixpoint readlines_from (sizehint total : Z) (f : rfile) : list string * rfile :=
  match f with
  | [] => ([], [])
  | l :: f' =>
      let total' := total + len l in
      if (0 <? sizehint) && (sizehint <? total') then ([l], f')
      else let '(ls, f'') := readlines_from sizehint total' f' in (l :: ls, f'')
  end.

(** [file.readlines(sizehint)]; the hint is taken as a C [long], and as
    it is given: the reading is by whole lines, with no rounding of the
    hint to the size of a buffer. *)
Definition readlines (sizehint : Z) (f : rfile) : res (list string * rfile) :=
  if c_long sizehint then Ok (readlines_from sizehint 0 f)
  else Raise OverflowError.

(** [open(filename, mode, buffer_size)], and [BZ2File] with the same
    arguments: the buffer size is taken as a C [int]; it sizes the I/O
    buffer and does not change what is read or written. *)
Definition open_buffered {A} (file : A) (buffer_size : Z) : res A :=
  if c_int buffer_size then Ok file else Raise OverflowError.

(** ** [list.sort]: a stable sort that only asks [<] *)

Section ListSort.
Context {A : Type} (lt : A → A → bool).

Fixpoint insert_sorted (x : A) (l : list A) : list A :=
  match l with
  | [] => [x]
  | y :: l' => if lt y x then y :: insert_sorted x l' else x :: l
  end.

Definition list_sort (l : list A) : list A := foldr insert_sorted [] l.
End ListSort.

(** ** [FileSplitter] *)

Section Splitter.
(** The type of the keys of [sort_key] and its [<]. *)
Context {K : Type} (ltK : K → K → bool).

(** [lines.sort()] or [lines.sort(key=sort_key)] *)
Definition sort_lines (sort_key : option (string → K)) (lines : list string)
    : list string :=
  match sort_key with
  | None => list_sort String.ltb lines
  | Some key => list_sort (λ a b, ltK (key a) (key b)) lines
  end.

(** [write_block(data, block_number)]: the file [block_<number>.dat]
    is created and its name appended to [block_filenames]. *)
Definition write_block (block_filenames : list string) (data : string)
    (block_number : Z) : list string :=
  block_filenames ++ [data].

(** The [while True] loop of [split]. *)
Fixpoint split_loop (fuel : nat) (block_size : Z)
    (sort_key : option (string → K)) (file : rfile) (i : Z)
    (block_filenames : list string) : res (list string) :=
  match fuel with
  | O => Unfinished
  | S fuel =>
      '(lines, file) ←! readlines block_size file;
      match lines with
      | [] => Ok block_filenames
      | _ :: _ =>
          let lines := sort_lines sort_key lines in
          let block_filenames := write_block block_filenames (join lines) i in
          split_loop fuel block_size sort_key file (i + 1) block_filenames
      end
  end.

Definition split (content : string) (block_size : Z)
    (sort_key : option (string → K)) : res (list string) :=
  let file := open_r content in
  split_loop (S (length file)) block_size sort_key file 0 [].
End Splitter.

(** ** [NWayMerge] *)

Section Select.
(** The type of the pending records and its [<]. *)
Context {V : Type} (lt : V → V → bool).

(** One turn of the [for] loop of [select]; the state is
    [(min_index, min_str)], with [None] for Python's [None]. *)
Definition select_body (choices : gmap Z V) (st : Z * option V) (i : Z)
    : res (Z * option V) :=
  let '(min_index, min_str) := st in
  match min_str with
  | None => Ok (i, min_str)
  | Some m =>
      c ←! getitem choices i;
      if lt c m then Ok (i, min_str) else Ok (min_index, min_str)
  end.

Definition select_loop (choices : gmap Z V) (idx : list Z) : res (Z * option V) :=
  for_each (select_body choices) idx (-1, None).

Definition select (choices : gmap Z V) : res Z :=
  st ←! select_loop choices (seqZ 0 (Z.of_nat (size choices)));
  Ok (fst st).
End Select.

(** ** [FilesArray] *)

(** A buffer holds [None] or a string. *)
Abbreviation pyval := (option string).

(** [<] on buffer values, as Python 2 orders them: [None] is below
    every string, strings compare character by character. *)
Definition py_lt (a b : pyval) : bool :=
  match a, b with
  | None, None => false
  | None, Some _ => true
  | Some _, None => false
  | Some x, Some y => String.ltb x y
  end.

Record FilesArray : Type := mkFilesArray {
  files : gmap Z rfile;
  empty : gset Z;
  num_buffers : Z;
  buffers : gmap Z pyval;
}.

Definition set_files (fa : FilesArray) (fs : gmap Z rfile) : FilesArray :=
  mkFilesArray fs (empty fa) (num_buffers fa) (buffers fa).
Definition set_empty (fa : FilesArray) (e : gset Z) : FilesArray :=
  mkFilesArray (files fa) e (num_buffers fa) (buffers fa).
Definition set_buffers (fa : FilesArray) (bs : gmap Z pyval) : FilesArray :=
  mkFilesArray (files fa) (empty fa) (num_buffers fa) bs.

(** [{i: None for i in range(n)}] *)
Definition none_buffers (n : Z) : gmap Z pyval :=
  foldr (λ i d, <[i := None]> d) ∅ (seqZ 0 n).

(** [FilesArray(files)] *)
Definition FilesArray_init (fs : gmap Z rfile) : FilesArray :=
  let n := Z.of_nat (size fs) in
  mkFilesArray fs ∅ n (none_buffers n).

(** [get_dict]: the buffers of the streams that are not in [empty]. *)
Definition get_dict_body (fa : FilesArray) (d : gmap Z pyval) (i : Z)
    : res (gmap Z pyval) :=
  if decide (i ∈ empty fa) then Ok d
  else v ←! getitem (buffers fa) i; Ok (<[i := v]> d).

Definition get_dict (fa : FilesArray) : res (gmap Z pyval) :=
  for_each (get_dict_body fa) (seqZ 0 (num_buffers fa)) ∅.

(** One turn of the [for] loop of [refresh]. *)
Definition refresh_body (fa : FilesArray) (i : Z) : res FilesArray :=
  b ←! getitem (buffers fa) i;
  match b with
  | Some _ => Ok fa
  | None =>
      if decide (i ∈ empty fa) then Ok fa
      else
        f ←! getitem (files fa) i;
        let '(line, f) := readline f in
        let fa := set_files fa (<[i := f]> (files fa)) in
        let fa := set_buffers fa (<[i := Some line]> (buffers fa)) in
        if String.eqb line "" then Ok (set_empty fa ({[i]} ∪ empty fa))
        else Ok fa
  end.

Definition refresh (fa : FilesArray) : res (FilesArray * bool) :=
  fa ←! for_each refresh_body (seqZ 0 (num_buffers fa)) fa;
  if Z.of_nat (size (empty fa)) =? num_buffers fa then Ok (fa, false)
  else Ok (fa, true).

(** [unshift(index)] *)
Definition unshift (fa : FilesArray) (index : Z) : res (FilesArray * pyval) :=
  value ←! getitem (buffers fa) index;
  Ok (set_buffers fa (<[index := None]> (buffers fa)), value).

(** ** [FileMerger] *)

(** [outfile.write(value)]: a value that is not a string is refused. *)
Definition write (outfile : string) (value : pyval) : res string :=
  match value with
  | Some s => Ok (outfile +:+ s)
  | None => Raise TypeError
  end.

(** [f(x)] for every [x] of a list, in order, up to the first call
    that raises. *)
Fixpoint map_res {A B} (f : A → res B) (l : list A) : res (list B) :=
  match l with
  | [] => Ok []
  | x :: l => y ←! f x; ys ←! map_res f l; Ok (y :: ys)
  end.

(** [get_file_handles]: [files[i] = open(filenames[i], 'r', buffer_size)]
    for every [i] of [range(len(filenames))], in this order. *)
Definition get_file_handles (filenames : list string) (buffer_size : Z)
    : res (gmap Z rfile) :=
  fs ←! map_res (λ name, open_buffered (open_r name) buffer_size) filenames;
  Ok (map_seqZ 0 fs).

(** One turn of [while buffers.refresh(): ...]; [None] when the loop
    is left. *)
Definition merge_body (st : FilesArray * string)
    : res (option (FilesArray * string)) :=
  let '(buffers, outfile) := st in
  '(buffers, more) ←! refresh buffers;
  if more : bool then
    choices ←! get_dict buffers;
    min_index ←! select py_lt choices;
    '(buffers, value) ←! unshift buffers min_index;
    outfile ←! write outfile value;
    Ok (Some (buffers, outfile))
  else Ok None.

Fixpoint merge_loop (fuel : nat) (st : FilesArray * string) : res string :=
  match fuel with
  | O => Unfinished
  | S fuel =>
      next ←! merge_body st;
      match next with
      | Some st => merge_loop fuel st
      | None => Ok (snd st)
      end
  end.

(** The loop writes at most one line per turn, plus one turn that
    writes nothing and one that leaves the loop. *)
Definition merge_fuel (filenames : list string) : nat :=
  3 + length (concat (open_r <$> filenames)).

(** [merge(filenames, outfilename, buffer_size)]; the result is the
    content of the output file. *)
Definition merge (filenames : list string) (buffer_size : Z) : res string :=
  outfile ←! open_buffered "" buffer_size;
  fs ←! get_file_handles filenames buffer_size;
  merge_loop (merge_fuel filenames) (FilesArray_init fs, outfile).

(** ** [ExternalSort] *)

(** [a / b] on ints *)
Definition py_div (a b : Z) : res Z :=
  if b =? 0 then Raise ZeroDivisionError else Ok (a / b).

(** [get_number_blocks]; [st_size] is [os.stat(filename).st_size], the
    size of the input file on disk. *)
Definition get_number_blocks (st_size block_size : Z) : res Z :=
  q ←! py_div st_size block_size; Ok (q + 1).

Section ExternalSort.
Context {K : Type} (ltK : K → K → bool).

(** [ExternalSort(block_size).sort(filename, sort_key)]: the content
    of the output file.  The input file is compressed: [st_size] is its
    size on disk, [content] the text that is read from it. *)
Definition sort (block_size st_size : Z) (content : string)
    (sort_key : option (string → K)) : res string :=
  num_blocks ←! get_number_blocks st_size block_size;
  block_filenames ←! split ltK content block_size sort_key;
  buffer_size ←! py_div block_size (num_blocks + 1);
  merge block_filenames buffer_size.
End ExternalSort.

(** A line of text with its terminator. *)
Definition ln (s : string) : string := s +:+ String nl "".

(** * Specification vocabulary *)

(** What [list.sort] needs of [<]: a strict weak order. *)
Class PyOrder {A : Type} (lt : A → A → bool) : Prop := {
  lt_asym : ∀ a b, lt a b = true → lt b a = false;
  le_trans : ∀ a b c, lt b a = false → lt c b = false → lt c a = false;
}.

(** The order and the equivalence that a [<] induces: [a ≤ b] is
    "not [b < a]", and two values are equal-ranked when neither is
    below the other. *)
Definition le_of {A} (lt : A → A → bool) (a b : A) : Prop := lt b a = false.
Definition eqv_of {A} (lt : A → A → bool) (a b : A) : Prop :=
  lt a b = false ∧ lt b a = false.

#[export] Instance eqv_of_dec {A} (lt : A → A → bool) a b : Decision (eqv_of lt a b).
Proof. unfold eqv_of. apply _. Defined.

(** [<] on records under the configured ordering: the key function when
    one is supplied, the records' own values otherwise. *)
Definition line_lt {K} (ltK : K → K → bool) (sort_key : option (string → K))
    (a b : string) : bool :=
  match sort_key with
  | None => String.ltb a b
  | Some key => ltK (key a) (key b)
  end.

(** The natural order of text. *)
Definition str_le (a b : string) : Prop := String.leb a b = true.

(** The runs of lines that the successive [readlines] calls of [split]
    take from the file, before they are sorted. *)
Fixpoint chunks_loop (fuel : nat) (block_size : Z) (file : rfile)
    : list (list string) :=
  match fuel with
  | O => []
  | S fuel =>
      let '(lines, file) := readlines_from block_size 0 file in
      match lines with
      | [] => []
      | _ :: _ => lines :: chunks_loop fuel block_size file
      end
  end.

Definition chunks (content : string) (block_size : Z) : list (list string) :=
  let file := open_r content in
  chunks_loop (S (length file)) block_size file.

(** A record that ends with the terminator and holds no other one. *)
Fixpoint terminated (l : string) : bool :=
  match l with
  | EmptyString => false
  | String c EmptyString => Ascii.eqb c nl
  | String c l' => negb (Ascii.eqb c nl) && terminated l'
  end.

(** A text whose last line, if any, ends with the terminator. *)
Fixpoint terminated_text (s : string) : bool :=
  match s with
  | EmptyString => true
  | String c EmptyString => Ascii.eqb c nl
  | String _ s' => terminated_text s'
  end.

(** [a ≤ b] on records under the configured ordering. *)
Definition line_le {K} (ltK : K → K → bool) (sort_key : option (string → K))
    (a b : string) : Prop :=
  match sort_key with
  | None => str_le a b
  | Some key => le_of ltK (key a) (key b)
  end.

(** What one stream of a [FilesArray] is made of: its buffer, its file
    and whether it is in [empty]. *)
Definition cell : Type := option pyval * option rfile * bool.

Definition cell_of (fa : FilesArray) (i : Z) : cell :=
  (buffers fa !! i, files fa !! i, bool_decide (i ∈ empty fa)).

(** The effect of one turn of the loop of [refresh] on its stream. *)
Definition refresh_cell (c : cell) : cell :=
  match c with
  | (Some None, Some f, false) =>
      let '(line, f') := readline f in
      (Some (Some line), Some f', String.eqb line "")
  | _ => c
  end.

(** The states of a [FilesArray] built by [FilesArray(files)] over
    [num_buffers] open files: the dictionaries are keyed by
    [range(num_buffers)], [empty] holds stream indices only, and a file
    holds no empty line ([readline] returns [''] at the end only). *)
Record FilesArray_wf (fa : FilesArray) : Prop := {
  wf_num : 0 ≤ num_buffers fa;
  wf_buffers : ∀ i, is_Some (buffers fa !! i) ↔ 0 ≤ i < num_buffers fa;
  wf_files : ∀ i, is_Some (files fa !! i) ↔ 0 ≤ i < num_buffers fa;
  wf_empty : ∀ i, i ∈ empty fa → 0 ≤ i < num_buffers fa;
  wf_lines : ∀ i f, files fa !! i = Some f → Forall (λ l, l ≠ "") f;
}.

(** What stream [i] has still to deliver: the pending record of its
    buffer, then the rest of its file. *)
Definition pending (fa : FilesArray) (i : Z) : list string :=
  match buffers fa !! i, files fa !! i with
  | Some (Some l), Some f => l :: f
  | Some None, Some f => f
  | _, _ => []
  end.

(** The records still to be written when the streams below [k] are the
    live ones and the highest live stream is always served first. *)
Definition remaining (fa : FilesArray) (k : Z) : list string :=
  concat (reverse (pending fa <$> seqZ 0 k)).

(** The number of live streams after [refresh]: the highest one goes
    when it has nothing left. *)
Definition live_after (fa : FilesArray) (k : Z) : Z :=
  if decide (0 < k ∧ pending fa (k - 1) = []) then k - 1 else k.

(** The state of [merge] at the head of its loop, with [n] streams of
    which those below [k] are live. *)
Record merge_inv (n k : Z) (fa : FilesArray) : Prop := {
  inv_wf : FilesArray_wf fa;
  inv_num : num_buffers fa = n;
  inv_k : 0 ≤ k ≤ n;
  inv_empty : ∀ i, i ∈ empty fa ↔ k ≤ i < n;
  inv_buffer : ∀ i, 0 ≤ i < k → buffers fa !! i ≠ Some (Some "");
  inv_pending : ∀ i, 0 ≤ i < k - 1 → pending fa i ≠ [];
}.

(** One turn of the loop of [merge] leads from [st] to [st']. *)
Definition merge_step (st st' : FilesArray * string) : Prop :=
  merge_body st = Ok (Some st').

(** The dictionary that [get_file_handles] returns: stream [i] is the
    block file [filenames[i]], opened for reading. *)
Definition handles (filenames : list string) : gmap Z rfile :=
  map_seqZ 0 (open_r <$> filenames).

(** The state in which [merge] enters its loop. *)
Definition merge_start (filenames : list string) : FilesArray * string :=
  (FilesArray_init (handles filenames), "").

(** The stream indices below [k]. *)
Definition below (k : Z) : gset Z := list_to_set (seqZ 0 k).


(** The total size of a list of lines, as [readlines] counts it. *)
Definition total_len (lines : list string) : Z :=
  foldr (λ l n, len l + n) 0 lines.

(** One call of a method of [FilesArray] that changes the object. *)
Inductive FilesArray_step (fa fa' : FilesArray) : Prop :=
  | step_refresh (more : bool) :
      refresh fa = Ok (fa', more) → FilesArray_step fa fa'
  | step_unshift (index : Z) (value : option string) :
      unshift fa index = Ok (fa', value) → FilesArray_step fa fa'.

(** ** [parse_memory] *)

(** What [parse_memory] can raise: [string[-1]] on an empty string, and
    [int] on a string that is no integer literal. *)
Inductive parse_exn : Type :=
  | IndexError
  | ValueError.

(** [string[-1]] *)
Fixpoint last_char (s : string) : option ascii :=
  match s with
  | EmptyString => None
  | String c EmptyString => Some c
  | String _ s' => last_char s'
  end.

(** [string[:-1]] *)
Fixpoint all_but_last (s : string) : string :=
  match s with
  | EmptyString => EmptyString
  | String _ EmptyString => EmptyString
  | String c s' => String c (all_but_last s')
  end.

(** [c.lower()] on one character: the letters [A] to [Z] go to [a] to
    [z], every other character stays. *)
Definition lower (c : ascii) : ascii :=
  let n := nat_of_ascii c in
  if (65 <=? n)%nat && (n <=? 90)%nat then ascii_of_nat (n + 32) else c.

Section ParseMemory.
(** [int(string)]: the integer that the string denotes, or [None] when
    [int] raises [ValueError]. *)
Context (int : string → option Z).

Definition int_or_raise (s : string) : parse_exn + Z :=
  match int s with
  | Some n => inr n
  | None => inl ValueError
  end.

(** The value of [f(int(s))]. *)
Definition int_then (f : Z → Z) (s : string) : parse_exn + Z :=
  match int_or_raise s with
  | inr n => inr (f n)
  | inl e => inl e
  end.

Definition parse_memory (string : string) : parse_exn + Z :=
  match last_char string with
  | None => inl IndexError
  | Some c =>
      if Ascii.eqb (lower c) "k"
      then int_then (λ n, n * 1024) (all_but_last string)
      else if Ascii.eqb (lower c) "m"
      then int_then (λ n, n * 1024 * 1024) (all_but_last string)
      else if Ascii.eqb (lower c) "g"
      then int_then (λ n, n * 1024 * 1024 * 1024) (all_but_last string)
      else int_or_raise string
  end.
End ParseMemory.

(** ** [merge] on arbitrary block files *)

(** No empty block file comes before a non-empty one. *)
Fixpoint empties_last (filenames : list string) : bool :=
  match filenames with
  | [] => true
  | b :: rest =>
      if String.eqb b "" then forallb (λ b', String.eqb b' "") rest
      else empties_last rest
  end.

(** The states of a [FilesArray] at the head of the loop of [merge],
    whatever the block files: a stream of [empty] still has the [''] of
    its last read in its buffer, and no other stream has. *)
Record tidy (n : Z) (fa : FilesArray) : Prop := {
  tidy_wf : FilesArray_wf fa;
  tidy_num : num_buffers fa = n;
  tidy_empty : ∀ i, i ∈ empty fa → buffers fa !! i = Some (Some "");
  tidy_live : ∀ i, i ∉ empty fa → buffers fa !! i ≠ Some (Some "");
}.

(** The streams that have a record left: they are the ones that are not
    in [empty] after the next [refresh]. *)
Definition left_set (fa : FilesArray) : gset Z :=
  filter (λ i, (i ∉ empty fa) ∧ pending fa i ≠ []) (below (num_buffers fa)).

(** The number of records left in the streams. *)
Definition weight (fa : FilesArray) (i : Z) : nat :=
  if decide (i ∈ empty fa) then 0%nat else length (pending fa i).

Definition left_count (fa : FilesArray) : nat :=
  sum_list (weight fa <$> seqZ 0 (num_buffers fa)).

(** ** The block files on disk *)

From stdpp Require pretty.

(** [BLOCK_FILENAME_FORMAT.format(block_number)] *)
Definition block_filename (block_number : Z) : string :=
  "block_" +:+ pretty.pretty block_number +:+ ".dat".

(** [write_block(data, block_number)] with the files of the working
    directory, a map from names to contents, and [self.block_filenames],
    now the list of the names: the file is created or overwritten and
    its name is appended. *)
Definition write_block_disk (st : gmap string string * list string)
    (data : string) (block_number : Z) : gmap string string * list string :=
  let filename := block_filename block_number in
  (<[filename := data]> st.1, st.2 ++ [filename]).

Section SplitterDisk.
Context {K : Type} (ltK : K → K → bool).

(** The loop of [split], writing to the disk.  The input file is read
    through the handle opened before the loop: it is taken to be none
    of the block files. *)
Fixpoint split_disk_loop (fuel : nat) (block_size : Z)
    (sort_key : option (string → K)) (file : rfile) (i : Z)
    (st : gmap string string * list string)
    : res (gmap string string * list string) :=
  match fuel with
  | O => Unfinished
  | S fuel =>
      '(lines, file) ←! readlines block_size file;
      match lines with
      | [] => Ok st
      | _ :: _ =>
          let lines := sort_lines ltK sort_key lines in
          let st := write_block_disk st (join lines) i in
          split_disk_loop fuel block_size sort_key file (i + 1) st
      end
  end.

(** [FileSplitter(filename).split(block_size, sort_key)] on a disk:
    the disk and [get_block_filenames()] afterwards.  [content] is the
    text of the input file. *)
Definition split_disk (content : string) (block_size : Z)
    (sort_key : option (string → K)) (disk : gmap string string)
    : res (gmap string string * list string) :=
  let file := open_r content in
  split_disk_loop (S (length file)) block_size sort_key file 0 (disk, []).
End SplitterDisk.

(** What [cleanup] leaves: the disk, and whether [os.remove] raised
    [OSError] on the way. *)
Inductive removal : Type :=
  | Removed (disk : gmap string string)
  | RaiseOSError (disk : gmap string string).

(** [cleanup()]: [os.remove(f)] for every [f] of [self.block_filenames],
    in order; [os.remove] raises [OSError] on a name that is not on the
    disk. *)
Fixpoint cleanup (block_filenames : list string) (disk : gmap string string)
    : removal :=
  match block_filenames with
  | [] => Removed disk
  | f :: rest =>
      match disk !! f with
      | Some _ => cleanup rest (delete f disk)
      | None => RaiseOSError disk
      end
  end.

(** The disk after the blocks have been written, from block number [i]
    on. *)
Fixpoint write_all (i : Z) (blocks : list string) (disk : gmap string string)
    : gmap string string :=
  match blocks with
  | [] => disk
  | b :: rest => write_all (i + 1) rest (<[block_filename i := b]> disk)
  end.
(** * Properties *)

(** ** The order of strings *)

Lemma ascii_compare_eq (a b : ascii) : Ascii.compare a b = Eq → a = b.
Proof. apply Ascii.compare_eq_iff. Qed.

Lemma ascii_compare_not_gt_trans (a b c : ascii) :
  Ascii.compare a b ≠ Gt → Ascii.compare b c ≠ Gt → Ascii.compare a c ≠ Gt.
Proof.
  unfold Ascii.compare. rewrite !N.compare_gt_iff. lia.
Qed.

Lemma ascii_compare_lt_l (a b c : ascii) :
  Ascii.compare a b = Lt → Ascii.compare b c ≠ Gt → Ascii.compare a c = Lt.
Proof.
  unfold Ascii.compare. rewrite !N.compare_lt_iff, N.compare_gt_iff. lia.
Qed.

Lemma ascii_compare_lt_r (a b c : ascii) :
  Ascii.compare a b ≠ Gt → Ascii.compare b c = Lt → Ascii.compare a c = Lt.
Proof.
  unfold Ascii.compare. rewrite !N.compare_lt_iff, N.compare_gt_iff. lia.
Qed.

Lemma string_compare_not_gt_trans (a b c : string) :
  String.compare a b ≠ Gt → String.compare b c ≠ Gt → String.compare a c ≠ Gt.
Proof.
  revert b c. induction a as [|x a IH]; intros [|y b] [|z c]; simpl; try done.
  destruct (Ascii.compare x y) eqn:Hxy; [| |done];
    destruct (Ascii.compare y z) eqn:Hyz; try done; intros Hab Hbc.
  - apply ascii_compare_eq in Hxy as ->. rewrite Hyz. by apply IH with b.
  - apply ascii_compare_eq in Hxy as ->. by rewrite Hyz.
  - apply ascii_compare_eq in Hyz as <-. by rewrite Hxy.
  - rewrite (ascii_compare_lt_l x y z); [done..|]. by rewrite Hyz.
Qed.

Lemma string_ltb_false (a b : string) :
  String.ltb a b = false ↔ String.leb b a = true.
Proof.
  unfold String.ltb, String.leb. rewrite (String.compare_antisym a b).
  by destruct (String.compare b a).
Qed.

Lemma string_leb_compare (a b : string) :
  String.leb a b = true ↔ String.compare a b ≠ Gt.
Proof. unfold String.leb. by destruct (String.compare a b). Qed.

Lemma string_leb_trans (a b c : string) :
  String.leb a b = true → String.leb b c = true → String.leb a c = true.
Proof. rewrite !string_leb_compare. apply string_compare_not_gt_trans. Qed.

#[export] Instance string_ltb_order : PyOrder String.ltb.
Proof.
  split.
  - intros a b. unfold String.ltb. rewrite (String.compare_antisym b a).
    by destruct (String.compare a b).
  - intros a b c. rewrite !string_ltb_false. intros ??. by apply string_leb_trans with b.
Qed.

#[export] Instance Z_ltb_order : PyOrder Z.ltb.
Proof. split; intros *; rewrite ?Z.ltb_lt, ?Z.ltb_ge; lia. Qed.

(** A key function carries the order of the keys to the records. *)
Lemma key_order {A K} (ltK : K → K → bool) (key : A → K) :
  PyOrder ltK → PyOrder (λ a b, ltK (key a) (key b)).
Proof.
  intros [Hasym Htrans]. split.
  - intros a b. apply Hasym.
  - intros a b c. apply Htrans.
Qed.

(** ** [list.sort] sorts, permutes and is stable *)

Section ListSortFacts.
Context {A : Type} (lt : A → A → bool) `{!PyOrder lt}.

Lemma insert_sorted_perm x l : insert_sorted lt x l ≡ₚ x :: l.
Proof.
  induction l as [|y l IH]; simpl; [done|].
  destruct (lt y x); [|done]. rewrite IH. apply Permutation_swap.
Qed.

Lemma list_sort_perm l : list_sort lt l ≡ₚ l.
Proof.
  induction l as [|x l IH]; simpl; [done|].
  by rewrite insert_sorted_perm, IH.
Qed.

Lemma insert_sorted_HdRel a x l :
  le_of lt a x → HdRel (le_of lt) a l → HdRel (le_of lt) a (insert_sorted lt x l).
Proof.
  intros Hax Hl. destruct l as [|y l]; simpl; [by constructor|].
  destruct (lt y x); constructor; [|done]. by inversion Hl.
Qed.

Lemma insert_sorted_Sorted x l :
  Sorted (le_of lt) l → Sorted (le_of lt) (insert_sorted lt x l).
Proof.
  induction 1 as [|y l Hl IH Hy]; simpl; [by repeat constructor|].
  destruct (lt y x) eqn:Hyx.
  - constructor; [done|]. apply insert_sorted_HdRel; [|done].
    by apply lt_asym.
  - constructor; [by constructor|]. by constructor.
Qed.

Lemma list_sort_Sorted l : Sorted (le_of lt) (list_sort lt l).
Proof.
  induction l as [|x l IH]; simpl; [constructor|].
  by apply insert_sorted_Sorted.
Qed.

Lemma eqv_of_lt_false z x y : eqv_of lt z x → lt y x = true → ¬ eqv_of lt z y.
Proof.
  intros [Hzx Hxz] Hyx [Hzy Hyz].
  assert (lt y x = false); [|congruence].
  by apply le_trans with z.
Qed.

Lemma insert_sorted_stable z x l :
  filter (eqv_of lt z) (insert_sorted lt x l) = filter (eqv_of lt z) (x :: l).
Proof.
  induction l as [|y l IH]; simpl; [done|].
  destruct (lt y x) eqn:Hyx; [|done].
  rewrite filter_cons, IH, !filter_cons.
  destruct (decide (eqv_of lt z x)) as [Hx|Hx]; [|done].
  destruct (decide (eqv_of lt z y)) as [Hy|Hy]; [|done].
  by destruct (eqv_of_lt_false z x y).
Qed.

Lemma list_sort_stable z l :
  filter (eqv_of lt z) (list_sort lt l) = filter (eqv_of lt z) l.
Proof.
  induction l as [|x l IH]; simpl; [done|].
  by rewrite insert_sorted_stable, !filter_cons, IH.
Qed.
End ListSortFacts.

(** ** [NWayMerge.select] *)

Section SelectFacts.
Context {V : Type} (lt : V → V → bool).

(** As long as [min_str] is [None] a turn of the loop only stores the
    index. *)
Lemma select_loop_from_none (choices : gmap Z V) idx m :
  for_each (select_body lt choices) idx (m, None)
  = Ok (default m (last idx), None).
Proof.
  revert m. induction idx as [|i idx IH]; intros m; simpl; [done|].
  rewrite IH, last_cons. by destruct (last idx).
Qed.

Lemma last_seqZ k : 0 ≤ k → default (-1) (last (seqZ 0 k)) = k - 1.
Proof.
  intros Hk. destruct (decide (k = 0)) as [->|Hne]; [done|].
  replace k with ((k - 1) + 1) at 1 by lia.
  rewrite seqZ_app by lia. rewrite (seqZ_cons _ 1), (seqZ_nil _ (Z.pred 1)) by lia.
  rewrite last_snoc. simpl. lia.
Qed.

Lemma select_loop_prefix (choices : gmap Z V) k :
  0 ≤ k → select_loop lt choices (seqZ 0 k) = Ok (k - 1, None).
Proof.
  intros Hk. unfold select_loop.
  by rewrite select_loop_from_none, last_seqZ.
Qed.

Lemma select_last (choices : gmap Z V) :
  select lt choices = Ok (Z.of_nat (size choices) - 1).
Proof. unfold select. rewrite select_loop_prefix by lia. done. Qed.
End SelectFacts.

(** C5. On a non-empty mapping, [min_str] is still [None] after every
    turn of the loop of [select] (so [choices[i] < min_str] is never
    evaluated), [select] returns [len(choices) - 1], and the result is
    the same for any other comparison and any other mapping of that
    size: it does not depend on the pending records. *)
Theorem select_returns_last_index {V : Type} (lt : V → V → bool)
    (choices : gmap Z V) :
  choices ≠ ∅ →
  (∀ k, 0 ≤ k ≤ Z.of_nat (size choices) →
        select_loop lt choices (seqZ 0 k) = Ok (k - 1, None))
  ∧ select lt choices = Ok (Z.of_nat (size choices) - 1)
  ∧ 0 ≤ Z.of_nat (size choices) - 1
  ∧ (∀ (lt' : V → V → bool) (choices' : gmap Z V),
        size choices' = size choices →
        select lt' choices' = select lt choices).
Proof.
  intros Hne. split_and!.
  - intros k [Hk _]. by apply select_loop_prefix.
  - apply select_last.
  - apply map_size_non_empty_iff in Hne. lia.
  - intros lt' choices' Hsize. by rewrite !select_last, Hsize.
Qed.

Lemma select_returns_last_index_witness :
  let choices : gmap Z (option string) :=
    {[0 := Some (ln "b"); 1 := Some (ln "a")]} in
  choices ≠ ∅ ∧ select py_lt choices = Ok (Z.of_nat (size choices) - 1).
Proof.
  intros choices. assert (choices ≠ ∅) as Hne by (by vm_compute).
  split; [done|].
  exact (proj1 (proj2 (select_returns_last_index py_lt choices Hne))).
Defined.

(** C10, as the code has it. [select] has no failure of its own: on an
    empty mapping the loop is not entered and the initial [min_index],
    [-1], is returned. *)
Theorem select_empty_returns_minus_one {V : Type} (lt : V → V → bool) :
  select lt (∅ : gmap Z V) = Ok (-1).
Proof. by rewrite select_last. Qed.

(** C10, as stated, fails: on the empty mapping [select] raises
    nothing. *)
Lemma select_empty_does_not_fail :
  ¬ ∃ e : exn, select py_lt (∅ : gmap Z pyval) = Raise e.
Proof. intros [e He]. by rewrite select_last in He. Qed.

(** C2, at a failing input. Stream 0 holds the smaller record and
    [select] returns 1; with equal records in both streams it returns 1
    as well, not the lowest index. *)
Theorem select_misses_minimum :
  let choices : gmap Z pyval := {[0 := Some (ln "a"); 1 := Some (ln "b")]} in
  let ties : gmap Z pyval := {[0 := Some (ln "apple"); 1 := Some (ln "apple")]} in
  py_lt (Some (ln "a")) (Some (ln "b")) = true
  ∧ select py_lt choices = Ok 1
  ∧ select py_lt ties = Ok 1.
Proof. by vm_compute. Qed.

(** ** Text and lines *)

Lemma append_nil_l (s : string) : "" +:+ s = s.
Proof. reflexivity. Qed.

Lemma append_String (c : ascii) (s t : string) :
  String c s +:+ t = String c (s +:+ t).
Proof. reflexivity. Qed.

Lemma append_empty_r (s : string) : s +:+ "" = s.
Proof. induction s as [|c s IH]; [done|]. by rewrite append_String, IH. Qed.

Lemma append_assoc (a b c : string) : (a +:+ b) +:+ c = a +:+ (b +:+ c).
Proof. induction a as [|x a IH]; [done|]. by rewrite !append_String, IH. Qed.

Lemma join_nil : join [] = "".
Proof. done. Qed.

Lemma join_cons (l : string) (ls : list string) : join (l :: ls) = l +:+ join ls.
Proof.
  unfold join. destruct ls as [|l' ls]; simpl; [by rewrite append_empty_r|done].
Qed.

Lemma join_app (ls1 ls2 : list string) : join (ls1 ++ ls2) = join ls1 +:+ join ls2.
Proof.
  induction ls1 as [|l ls1 IH]; [done|].
  rewrite <- app_comm_cons, !join_cons, IH. by rewrite append_assoc.
Qed.

Lemma join_concat (lss : list (list string)) : join (concat lss) = join (join <$> lss).
Proof.
  induction lss as [|ls lss IH]; [done|].
  simpl. by rewrite join_app, join_cons, IH.
Qed.

Lemma join_lines_of (s : string) : join (lines_of s) = s.
Proof.
  induction s as [|c s IH]; [done|]. simpl.
  destruct (Ascii.eqb c nl).
  - by rewrite join_cons, IH.
  - destruct (lines_of s) as [|l ls]; rewrite join_cons in *;
      rewrite ?append_String; by rewrite <- IH.
Qed.

Lemma lines_of_nonempty (s : string) : Forall (λ l, l ≠ "") (lines_of s).
Proof.
  induction s as [|c s IH]; simpl; [constructor|].
  destruct (Ascii.eqb c nl); [by constructor|].
  destruct (lines_of s) as [|l ls]; [by repeat constructor|].
  inversion IH; by constructor.
Qed.

Lemma lines_of_nil (s : string) : lines_of s = [] → s = "".
Proof. intros H. by rewrite <- (join_lines_of s), H. Qed.

Lemma terminated_nonempty (l : string) : terminated l = true → l ≠ "".
Proof. by destruct l. Qed.

(** A terminated record is read back as one line, whatever follows. *)
Lemma lines_of_terminated_app (l s : string) :
  terminated l = true → lines_of (l +:+ s) = l :: lines_of s.
Proof.
  induction l as [|c l IH]; [done|]. rewrite append_String.
  destruct l as [|c' l].
  - simpl. by intros ->.
  - intros [Hc Hl]%andb_prop. apply negb_true_iff in Hc.
    specialize (IH Hl). simpl in *. by rewrite Hc, IH.
Qed.

Lemma lines_of_join (ls : list string) :
  Forall (λ l, terminated l = true) ls → lines_of (join ls) = ls.
Proof.
  induction 1 as [|l ls Hl _ IH]; [done|].
  by rewrite join_cons, lines_of_terminated_app, IH.
Qed.

Lemma lines_of_terminated_text (s : string) :
  terminated_text s = true → Forall (λ l, terminated l = true) (lines_of s).
Proof.
  induction s as [|c s IH]; [constructor|].
  intros Hs. assert (s = "" ∧ Ascii.eqb c nl = true ∨ s ≠ "" ∧ terminated_text s = true)
    as [[-> Hc]|[Hne Hs']] by (destruct s; naive_solver).
  - simpl. rewrite Hc. by repeat constructor.
  - specialize (IH Hs'). simpl. destruct (Ascii.eqb c nl) eqn:Hc.
    + constructor; [|done]. simpl. done.
    + destruct (lines_of s) as [|l ls] eqn:Hl.
      { by apply lines_of_nil in Hl. }
      inversion IH as [|?? Hl' Hls]; subst. constructor; [|done].
      simpl. rewrite Hc. simpl. destruct l; [done|]. done.
Qed.

(** ** [readlines] and the runs of [split] *)

Lemma readlines_from_app sizehint total f ls f' :
  readlines_from sizehint total f = (ls, f') → f = ls ++ f'.
Proof.
  revert total ls f'. induction f as [|l f IH]; intros total ls f'; simpl.
  - by intros [= <- <-].
  - destruct (_ && _); [by intros [= <- <-]|].
    destruct (readlines_from _ _ f) as [ls0 f0] eqn:Hrec.
    intros [= <- <-]. by rewrite (IH _ _ _ Hrec).
Qed.

Lemma readlines_from_nil sizehint total f f' :
  readlines_from sizehint total f = ([], f') → f = [].
Proof.
  destruct f as [|l f]; simpl; [done|].
  destruct (_ && _); [done|]. by destruct (readlines_from _ _ f).
Qed.

Lemma c_long_true (n : Z) : c_long n = true ↔ - 2 ^ 63 ≤ n < 2 ^ 63.
Proof. unfold c_long. rewrite andb_true_iff, Z.leb_le, Z.ltb_lt. done. Qed.

Lemma c_int_true (n : Z) : c_int n = true ↔ - 2 ^ 31 ≤ n < 2 ^ 31.
Proof. unfold c_int. rewrite andb_true_iff, Z.leb_le, Z.ltb_lt. done. Qed.

Lemma chunks_loop_concat fuel block_size f :
  (length f < fuel)%nat → concat (chunks_loop fuel block_size f) = f.
Proof.
  revert f. induction fuel as [|fuel IH]; intros f Hf; [lia|]. simpl.
  destruct (readlines_from block_size 0 f) as [ls f'] eqn:Hr.
  pose proof (readlines_from_app _ _ _ _ _ Hr) as ->.
  destruct ls as [|l ls].
  - by apply readlines_from_nil in Hr.
  - simpl. rewrite IH; [done|]. rewrite length_app in Hf. simpl in Hf. lia.
Qed.

Lemma chunks_loop_nonempty fuel block_size f :
  Forall (λ c, c ≠ []) (chunks_loop fuel block_size f).
Proof.
  revert f. induction fuel as [|fuel IH]; intros f; simpl; [constructor|].
  destruct (readlines_from block_size 0 f) as [[|l ls] f']; [constructor|].
  by constructor.
Qed.

Lemma concat_chunks content block_size :
  concat (chunks content block_size) = lines_of content.
Proof. apply chunks_loop_concat. unfold open_r. lia. Qed.

Section SplitFacts.
Context {K : Type} (ltK : K → K → bool).

Lemma split_loop_chunks fuel block_size sort_key f i acc :
  c_long block_size = true →
  (length f < fuel)%nat →
  split_loop ltK fuel block_size sort_key f i acc
  = Ok (acc ++ ((λ c, join (sort_lines ltK sort_key c))
                  <$> chunks_loop fuel block_size f)).
Proof.
  intros Hlong. revert f i acc.
  induction fuel as [|fuel IH]; intros f i acc Hf; [lia|].
  cbn [split_loop chunks_loop]. unfold readlines. rewrite Hlong. cbn [bind].
  destruct (readlines_from block_size 0 f) as [ls f'] eqn:Hr.
  pose proof (readlines_from_app _ _ _ _ _ Hr) as ->.
  destruct ls as [|l ls]; [by rewrite app_nil_r|].
  rewrite IH.
  - unfold write_block. rewrite fmap_cons. by rewrite <- app_assoc.
  - rewrite length_app in Hf. simpl in Hf. lia.
Qed.

(** [split] raises [OverflowError] at its first [readlines] when the
    block size does not fit a C [long]; otherwise it ends, and writes
    one block per run, in order. *)
Lemma split_chunks content block_size sort_key :
  split ltK content block_size sort_key
  = if c_long block_size
    then Ok ((λ c, join (sort_lines ltK sort_key c)) <$> chunks content block_size)
    else Raise OverflowError.
Proof.
  unfold split, chunks. destruct (c_long block_size) eqn:Hlong.
  - rewrite split_loop_chunks by (done || lia). done.
  - cbn [split_loop]. unfold readlines. by rewrite Hlong.
Qed.

Lemma split_chunks_long content block_size sort_key :
  - 2 ^ 63 ≤ block_size < 2 ^ 63 →
  split ltK content block_size sort_key
  = Ok ((λ c, join (sort_lines ltK sort_key c)) <$> chunks content block_size).
Proof. intros Hlong%c_long_true. by rewrite split_chunks, Hlong. Qed.
End SplitFacts.

(** ** The blocks of [split] *)

Lemma Sorted_weaken {A} (R1 R2 : A → A → Prop) (l : list A) :
  (∀ a b, R1 a b → R2 a b) → Sorted R1 l → Sorted R2 l.
Proof.
  intros HR. induction 1 as [|x l _ IH Hx]; constructor; [done|].
  destruct Hx; constructor. by apply HR.
Qed.

Section BlockFacts.
Context {K : Type} (ltK : K → K → bool) `{!PyOrder ltK}.

#[local] Instance line_lt_order sort_key : PyOrder (line_lt ltK sort_key).
Proof.
  destruct sort_key as [key|]; unfold line_lt.
  - by apply key_order.
  - exact string_ltb_order.
Qed.

Lemma sort_lines_list_sort sort_key lines :
  sort_lines ltK sort_key lines = list_sort (line_lt ltK sort_key) lines.
Proof. by destruct sort_key. Qed.

Lemma le_of_line_lt sort_key a b :
  le_of (line_lt ltK sort_key) a b ↔ line_le ltK sort_key a b.
Proof.
  destruct sort_key as [key|]; simpl; [done|]. apply string_ltb_false.
Qed.

Lemma sort_lines_Sorted sort_key lines :
  Sorted (line_le ltK sort_key) (sort_lines ltK sort_key lines).
Proof.
  rewrite sort_lines_list_sort.
  eapply Sorted_weaken; [|apply (list_sort_Sorted (line_lt ltK sort_key))].
  intros a b. apply le_of_line_lt.
Qed.

Lemma sort_lines_perm sort_key lines : sort_lines ltK sort_key lines ≡ₚ lines.
Proof. rewrite sort_lines_list_sort. apply list_sort_perm. Qed.

Lemma sort_lines_stable sort_key z lines :
  filter (eqv_of (line_lt ltK sort_key) z) (sort_lines ltK sort_key lines)
  = filter (eqv_of (line_lt ltK sort_key) z) lines.
Proof. rewrite sort_lines_list_sort. by apply list_sort_stable, _. Qed.
End BlockFacts.

(** The runs of a text whose lines are all terminated. *)
Lemma chunks_terminated (content : string) (block_size : Z) :
  terminated_text content = true →
  Forall (Forall (λ l, terminated l = true)) (chunks content block_size).
Proof.
  intros Hc%lines_of_terminated_text.
  rewrite <- (concat_chunks content block_size) in Hc.
  by apply Forall_concat in Hc.
Qed.

(** C7, as the code has it. When the last record of the input ends
    with the terminator, [split] writes one block per run of lines
    that [readlines] takes from the file, in order; the records of
    each block, as they stand in the block file, are those of its run,
    non-decreasing under the ordering (the keys when [sort_key] is
    given, the natural order of text otherwise), and the records of a
    block that are equal-ranked with any given record stand in the
    order they had in the run.  The block size has to fit a C [long]
    for [readlines] to take it. *)
Theorem split_blocks_sorted_stable {K : Type} (ltK : K → K → bool)
    (content : string) (block_size : Z) (sort_key : option (string → K)) :
  PyOrder ltK →
  - 2 ^ 63 ≤ block_size < 2 ^ 63 →
  terminated_text content = true →
  ∃ blocks : list string,
    split ltK content block_size sort_key = Ok blocks
    ∧ Forall2 (λ block run,
          Sorted (line_le ltK sort_key) (lines_of block)
          ∧ lines_of block ≡ₚ run
          ∧ ∀ z, filter (eqv_of (line_lt ltK sort_key) z) (lines_of block)
                 = filter (eqv_of (line_lt ltK sort_key) z) run)
        blocks (chunks content block_size)
    ∧ concat (chunks content block_size) = lines_of content.
Proof.
  intros Hord Hlong Hterm. eexists. split; [by apply split_chunks_long|].
  split; [|apply concat_chunks].
  apply Forall2_fmap_l, Forall2_same_length_lookup_2; [done|].
  intros i run run' Hrun Hrun'. simplify_eq.
  pose proof (chunks_terminated content block_size Hterm) as Hruns.
  rewrite Forall_lookup in Hruns. specialize (Hruns i run Hrun).
  unfold compose. rewrite lines_of_join by (by rewrite sort_lines_perm).
  split_and!.
  - by apply sort_lines_Sorted.
  - by apply sort_lines_perm.
  - intros z. by apply sort_lines_stable.
Qed.

Lemma split_blocks_sorted_stable_witness :
  PyOrder Z.ltb
  ∧ - 2 ^ 63 ≤ 100 < 2 ^ 63
  ∧ terminated_text (ln "bb" +:+ ln "a" +:+ ln "cc") = true
  ∧ ∃ blocks : list string,
      split Z.ltb (ln "bb" +:+ ln "a" +:+ ln "cc") 100 (Some len) = Ok blocks
      ∧ Forall2 (λ block run, lines_of block ≡ₚ run)
          blocks (chunks (ln "bb" +:+ ln "a" +:+ ln "cc") 100).
Proof.
  split; [apply Z_ltb_order|]. split; [lia|]. split; [reflexivity|].
  destruct (split_blocks_sorted_stable Z.ltb (ln "bb" +:+ ln "a" +:+ ln "cc")
              100 (Some len) Z_ltb_order) as (blocks & Hsplit & Hblocks & _);
    [lia|reflexivity|].
  exists blocks. split; [done|].
  eapply Forall2_impl; [exact Hblocks|]. by intros block run (_ & Hperm & _).
Defined.

(** C7, as stated, fails when the last line of the input has no
    terminator: [split] sorts the lines [ba], [b], [b] of one run to
    [b], [b], [ba], the unterminated [b] first, and writes them end to
    end; the block holds the records [bb], [ba], in descending order. *)
Lemma split_unterminated_block_not_sorted :
  split Z.ltb (ln "ba" +:+ ln "b" +:+ "b") 100 None = Ok [ln "bb" +:+ ln "ba"]
  ∧ lines_of (ln "bb" +:+ ln "ba") = [ln "bb"; ln "ba"]
  ∧ ¬ Sorted str_le [ln "bb"; ln "ba"].
Proof.
  split_and!; [by vm_compute..|].
  intros Hs. apply Sorted_inv in Hs as [_ Hhd]. apply HdRel_inv in Hhd.
  by vm_compute in Hhd.
Qed.

(** ** [FilesArray] *)

Lemma elem_of_below (i k : Z) : i ∈ below k ↔ 0 ≤ i < k.
Proof. unfold below. rewrite elem_of_list_to_set, elem_of_seqZ. lia. Qed.

Lemma size_below (k : Z) : 0 ≤ k → Z.of_nat (size (below k)) = k.
Proof.
  intros Hk. unfold below.
  rewrite size_list_to_set by apply NoDup_seqZ. rewrite length_seqZ. lia.
Qed.

Lemma getitem_Some {V} (d : gmap Z V) (k : Z) (v : V) :
  d !! k = Some v → getitem d k = Ok v.
Proof. unfold getitem. by intros ->. Qed.

Lemma refresh_body_cell (fa : FilesArray) (i : Z) :
  is_Some (buffers fa !! i) → is_Some (files fa !! i) →
  ∃ fa', refresh_body fa i = Ok fa'
    ∧ num_buffers fa' = num_buffers fa
    ∧ cell_of fa' i = refresh_cell (cell_of fa i)
    ∧ ∀ j, j ≠ i → cell_of fa' j = cell_of fa j.
Proof.
  intros [b Hb] [f Hf].
  assert (cell_of fa i = (Some b, Some f, bool_decide (i ∈ empty fa))) as Hc.
  { unfold cell_of. by rewrite Hb, Hf. }
  rewrite Hc. unfold refresh_body. rewrite (getitem_Some _ _ _ Hb). simpl.
  destruct b as [s|]; [by exists fa|].
  destruct (decide (i ∈ empty fa)) as [Hi|Hi].
  { exists fa. by rewrite Hc, bool_decide_eq_true_2. }
  rewrite (getitem_Some _ _ _ Hf), (bool_decide_eq_false_2 _ Hi). simpl.
  destruct (readline f) as [line f'].
  destruct (String.eqb line "") eqn:Hline; eexists; (split; [done|]);
    unfold cell_of; simpl.
  - split_and!; [done| |].
    + rewrite !lookup_insert_eq. by rewrite bool_decide_eq_true_2 by set_solver.
    + intros j Hj. rewrite !lookup_insert_ne by done.
      do 2 f_equal. apply bool_decide_ext. set_solver.
  - split_and!; [done| |].
    + rewrite !lookup_insert_eq. by rewrite bool_decide_eq_false_2.
    + intros j Hj. by rewrite !lookup_insert_ne.
Qed.

Lemma cell_of_buffers fa fa' i :
  cell_of fa' i = cell_of fa i → buffers fa' !! i = buffers fa !! i.
Proof. unfold cell_of. by intros [= -> _ _]. Qed.

Lemma cell_of_files fa fa' i :
  cell_of fa' i = cell_of fa i → files fa' !! i = files fa !! i.
Proof. unfold cell_of. by intros [= _ -> _]. Qed.

Lemma refresh_loop_cell (idx : list Z) (fa : FilesArray) :
  NoDup idx →
  (∀ i, i ∈ idx → is_Some (buffers fa !! i) ∧ is_Some (files fa !! i)) →
  ∃ fa', for_each refresh_body idx fa = Ok fa'
    ∧ num_buffers fa' = num_buffers fa
    ∧ ∀ i, cell_of fa' i
           = if decide (i ∈ idx) then refresh_cell (cell_of fa i) else cell_of fa i.
Proof.
  revert fa. induction idx as [|i idx IH]; intros fa Hnd Hsome.
  { exists fa. split_and!; [done..|]. intros i. by rewrite decide_False by set_solver. }
  apply NoDup_cons in Hnd as [Hi Hnd].
  destruct (Hsome i) as [Hb Hf]; [set_solver|].
  destruct (refresh_body_cell fa i Hb Hf) as (fa1 & Hbody & Hnum1 & Hcell & Hother).
  destruct (IH fa1 Hnd) as (fa' & Hloop & Hnum & Hcells).
  { intros j Hj. assert (j ≠ i) as Hne by set_solver.
    rewrite (cell_of_buffers _ _ _ (Hother j Hne)), (cell_of_files _ _ _ (Hother j Hne)).
    apply Hsome. set_solver. }
  exists fa'. simpl. rewrite Hbody. simpl. split_and!; [done|congruence|].
  intros j. rewrite Hcells. destruct (decide (j = i)) as [->|Hne].
  - rewrite decide_False, decide_True by set_solver. done.
  - rewrite (Hother j Hne).
    destruct (decide (j ∈ idx)); [rewrite decide_True|rewrite decide_False];
      set_solver.
Qed.

Lemma refresh_cells (fa : FilesArray) :
  FilesArray_wf fa →
  ∃ fa', refresh fa
         = Ok (fa', negb (Z.of_nat (size (empty fa')) =? num_buffers fa))
    ∧ num_buffers fa' = num_buffers fa
    ∧ ∀ i, cell_of fa' i
           = if decide (0 ≤ i < num_buffers fa) then refresh_cell (cell_of fa i)
             else cell_of fa i.
Proof.
  intros Hwf.
  destruct (refresh_loop_cell (seqZ 0 (num_buffers fa)) fa) as (fa' & Hloop & Hnum & Hcells).
  { apply NoDup_seqZ. }
  { intros i Hi%elem_of_seqZ. split; [apply wf_buffers|apply wf_files]; done || lia. }
  exists fa'. unfold refresh. rewrite Hloop. simpl. rewrite Hnum. split_and!; [|done|].
  - by destruct (_ =? _).
  - intros i. rewrite Hcells.
    destruct (decide (0 ≤ i < num_buffers fa)); [rewrite decide_True|rewrite decide_False];
      rewrite ?elem_of_seqZ; done || lia.
Qed.

Lemma refresh_cell_is_Some (c : cell) :
  (is_Some (c.1.1) ↔ is_Some ((refresh_cell c).1.1))
  ∧ (is_Some (c.1.2) ↔ is_Some ((refresh_cell c).1.2)).
Proof.
  destruct c as [[[[s|]|] [f|]] [|]]; simpl; try done.
  destruct (readline f); simpl. split; split; eauto.
Qed.

Lemma all_exhausted (fa : FilesArray) :
  0 ≤ num_buffers fa →
  (∀ i, i ∈ empty fa → 0 ≤ i < num_buffers fa) →
  Z.of_nat (size (empty fa)) = num_buffers fa
  ↔ ∀ i, 0 ≤ i < num_buffers fa → i ∈ empty fa.
Proof.
  intros Hn Hsub. assert (empty fa ⊆ below (num_buffers fa)) as Hincl.
  { intros i Hi. apply elem_of_below. by apply Hsub. }
  split.
  - intros Hsize i Hi.
    assert (empty fa = below (num_buffers fa)) as ->.
    { apply set_subseteq_size_eq; [done|]. pose proof (size_below _ Hn). lia. }
    by apply elem_of_below.
  - intros Hall. assert (empty fa = below (num_buffers fa)) as ->.
    { apply set_eq. intros i. rewrite elem_of_below. naive_solver. }
    by apply size_below.
Qed.

Lemma refresh_cell_files (c : cell) (f' : rfile) :
  (refresh_cell c).1.2 = Some f' →
  ∃ f, c.1.2 = Some f ∧ (f' = f ∨ f' = (readline f).2).
Proof.
  destruct c as [[[[s|]|] [f|]] [|]]; simpl; try by eauto.
  destruct (readline f) eqn:Hr; simpl. intros [= <-]. exists f. rewrite Hr. eauto.
Qed.

Lemma refresh_cells_wf (fa fa' : FilesArray) :
  FilesArray_wf fa →
  num_buffers fa' = num_buffers fa →
  (∀ i, cell_of fa' i
        = if decide (0 ≤ i < num_buffers fa) then refresh_cell (cell_of fa i)
          else cell_of fa i) →
  FilesArray_wf fa'.
Proof.
  intros Hwf Hnum Hcells.
  assert (∀ i, buffers fa' !! i = (cell_of fa' i).1.1) as Hb by done.
  assert (∀ i, files fa' !! i = (cell_of fa' i).1.2) as Hf by done.
  split; rewrite ?Hnum.
  - apply Hwf.
  - intros i. rewrite Hb, Hcells. destruct (decide _); [|apply Hwf].
    destruct (refresh_cell_is_Some (cell_of fa i)) as [<- _]. apply Hwf.
  - intros i. rewrite Hf, Hcells. destruct (decide _); [|apply Hwf].
    destruct (refresh_cell_is_Some (cell_of fa i)) as [_ <-]. apply Hwf.
  - intros i Hi. specialize (Hcells i). case_decide as Hout; [done|].
    apply (wf_empty _ Hwf). unfold cell_of in Hcells.
    injection Hcells as _ _ Hd.
    assert (bool_decide (i ∈ empty fa) = true) as Ht.
    { rewrite <- Hd. by apply bool_decide_eq_true_2. }
    by apply bool_decide_eq_true_1 in Ht.
  - intros i f'. rewrite Hf, Hcells. destruct (decide _).
    + intros (f & Hfi & Hcase)%refresh_cell_files.
      pose proof (wf_lines _ Hwf i f Hfi) as Hlines.
      destruct Hcase as [->| ->]; [done|]. destruct Hlines; [done|]. done.
    + apply (wf_lines _ Hwf).
Qed.

Lemma refresh_wf (fa fa' : FilesArray) (more : bool) :
  FilesArray_wf fa → refresh fa = Ok (fa', more) → FilesArray_wf fa'.
Proof.
  intros Hwf Hr. destruct (refresh_cells fa Hwf) as (fa1 & Hr1 & Hnum & Hcells).
  rewrite Hr1 in Hr. injection Hr as -> _. by apply (refresh_cells_wf fa).
Qed.

(** C8. On a [FilesArray] as its constructor and methods make them,
    [refresh] returns; a stream that is not in [empty] and whose buffer
    is [None] gets the next record of its file in its buffer, or, when
    the file is at its end, joins [empty] (its buffer then holds [''],
    what the read returned); every other stream keeps its buffer, its
    file and its status; and the result is [False] exactly when every
    stream is in [empty] afterwards. *)
Theorem refresh_fills_empty_buffers (fa : FilesArray) :
  FilesArray_wf fa →
  ∃ (fa' : FilesArray) (more : bool),
    refresh fa = Ok (fa', more)
    ∧ num_buffers fa' = num_buffers fa
    ∧ (∀ i f, i ∉ empty fa → buffers fa !! i = Some None → files fa !! i = Some f →
         match f with
         | l :: f' =>
             buffers fa' !! i = Some (Some l) ∧ files fa' !! i = Some f'
             ∧ i ∉ empty fa'
         | [] =>
             buffers fa' !! i = Some (Some "") ∧ files fa' !! i = Some []
             ∧ i ∈ empty fa'
         end)
    ∧ (∀ i, i ∈ empty fa ∨ buffers fa !! i ≠ Some None →
         buffers fa' !! i = buffers fa !! i ∧ files fa' !! i = files fa !! i
         ∧ (i ∈ empty fa' ↔ i ∈ empty fa))
    ∧ (more = false ↔ ∀ i, 0 ≤ i < num_buffers fa → i ∈ empty fa').
Proof.
  intros Hwf. destruct (refresh_cells fa Hwf) as (fa' & Hr & Hnum & Hcells).
  pose proof (refresh_cells_wf fa fa' Hwf Hnum Hcells) as Hwf'.
  eexists fa', _. split; [exact Hr|]. split; [done|]. split_and!.
  - intros i f Hi Hb Hf. specialize (Hcells i). case_decide as Hin.
    2: { destruct Hin. apply (proj1 (wf_buffers _ Hwf i)). by rewrite Hb. }
    unfold cell_of in Hcells. rewrite Hb, Hf, (bool_decide_eq_false_2 _ Hi) in Hcells.
    pose proof (wf_lines _ Hwf i f Hf) as Hlines.
    destruct f as [|l f']; simpl in Hcells; injection Hcells as -> -> Hd.
    + split_and!; [done..|]. by apply bool_decide_eq_true_1 in Hd.
    + apply Forall_cons_1 in Hlines as [Hl%String.eqb_neq _]. rewrite Hl in Hd.
      split_and!; [done..|]. by apply bool_decide_eq_false_1 in Hd.
  - intros i Hi. assert (cell_of fa' i = cell_of fa i) as Hc.
    { rewrite Hcells. destruct (decide _); [|done]. unfold cell_of.
      destruct Hi as [Hi|Hi].
      - rewrite (bool_decide_eq_true_2 _ Hi).
        by destruct (buffers fa !! i) as [[?|]|], (files fa !! i).
      - by destruct (buffers fa !! i) as [[?|]|], (files fa !! i). }
    unfold cell_of in Hc. injection Hc as -> -> Hd. split_and!; [done..|].
    by rewrite <- (bool_decide_eq_true (i ∈ empty fa')), Hd, bool_decide_eq_true.
  - rewrite negb_false_iff, Z.eqb_eq, <- Hnum. apply all_exhausted.
    + apply Hwf'.
    + apply Hwf'.
Qed.

(** ** The state in which [merge] starts *)

Lemma lookup_foldr_insert_None (idx : list Z) (i : Z) :
  foldr (λ i (d : gmap Z (option string)), <[i := None]> d) ∅ idx !! i
  = if decide (i ∈ idx) then Some None else None.
Proof.
  induction idx as [|j idx IH]; cbn [foldr].
  { rewrite lookup_empty. by rewrite decide_False by apply not_elem_of_nil. }
  destruct (decide (i = j)) as [->|Hne].
  - rewrite lookup_insert_eq. by rewrite decide_True by (apply elem_of_cons; by left).
  - rewrite lookup_insert_ne, IH by done.
    destruct (decide (i ∈ idx)) as [Hi|Hi].
    + by rewrite decide_True by (apply elem_of_cons; by right).
    + rewrite decide_False; [done|]. by intros [?|?]%elem_of_cons.
Qed.

Lemma lookup_none_buffers (n i : Z) :
  none_buffers n !! i = if decide (0 ≤ i < n) then Some None else None.
Proof.
  unfold none_buffers. rewrite lookup_foldr_insert_None.
  destruct (decide (0 ≤ i < n)); [rewrite decide_True|rewrite decide_False];
    rewrite ?elem_of_seqZ; done || lia.
Qed.

Lemma size_map_seqZ {A} (start : Z) (xs : list A) :
  size (map_seqZ start xs : gmap Z A) = length xs.
Proof.
  revert start. induction xs as [|x xs IH]; intros start; simpl.
  - apply map_size_empty.
  - rewrite map_size_insert_None by apply map_seqZ_cons_disjoint. by rewrite IH.
Qed.

Lemma size_handles (filenames : list string) :
  Z.of_nat (size (handles filenames)) = Z.of_nat (length filenames).
Proof. unfold handles. by rewrite size_map_seqZ, length_fmap. Qed.

Lemma lookup_handles (filenames : list string) (i : Z) (f : list string) :
  handles filenames !! i = Some f
  ↔ 0 ≤ i ∧ ∃ b, filenames !! Z.to_nat i = Some b ∧ f = lines_of b.
Proof.
  unfold handles. rewrite lookup_map_seqZ_Some, list_lookup_fmap, Z.sub_0_r.
  unfold open_r. destruct (filenames !! Z.to_nat i); naive_solver.
Qed.

Lemma FilesArray_init_wf (filenames : list string) :
  FilesArray_wf (FilesArray_init (handles filenames)).
Proof.
  unfold FilesArray_init. split; simpl; rewrite ?size_handles.
  - lia.
  - intros i. rewrite lookup_none_buffers. destruct (decide _); [by eauto|].
    split; [by intros [? ?]|done].
  - intros i. unfold handles.
    rewrite lookup_map_seqZ_is_Some, length_fmap. lia.
  - intros i []%not_elem_of_empty.
  - intros i f (_ & b & _ & ->)%lookup_handles. apply lines_of_nonempty.
Qed.

Lemma refresh_fills_empty_buffers_witness :
  let fa := FilesArray_init (handles [ln "a"; ""]) in
  FilesArray_wf fa
  ∧ ∃ (fa' : FilesArray) (more : bool),
      refresh fa = Ok (fa', more)
      ∧ (more = false ↔ ∀ i, 0 ≤ i < num_buffers fa → i ∈ empty fa').
Proof.
  intros fa. assert (FilesArray_wf fa) as Hwf by apply FilesArray_init_wf.
  split; [done|].
  destruct (refresh_fills_empty_buffers fa Hwf)
    as (fa' & more & Hr & _ & _ & _ & Hmore).
  by exists fa', more.
Defined.

Lemma pending_init (filenames : list string) (i : nat) (b : string) :
  filenames !! i = Some b →
  pending (FilesArray_init (handles filenames)) (Z.of_nat i) = lines_of b.
Proof.
  intros Hb. pose proof (lookup_lt_Some _ _ _ Hb) as Hlt.
  unfold pending, FilesArray_init. simpl.
  rewrite lookup_none_buffers, size_handles.
  rewrite decide_True by lia.
  assert (handles filenames !! Z.of_nat i = Some (lines_of b)) as ->; [|done].
  apply lookup_handles. split; [lia|]. exists b. by rewrite Nat2Z.id.
Qed.

Lemma merge_start_inv (filenames : list string) :
  Forall (λ b, b ≠ "") filenames →
  merge_inv (Z.of_nat (length filenames)) (Z.of_nat (length filenames))
    (FilesArray_init (handles filenames)).
Proof.
  intros Hne. split.
  - apply FilesArray_init_wf.
  - apply size_handles.
  - lia.
  - intros i. simpl. split; [by intros []%not_elem_of_empty|lia].
  - intros i Hi. simpl. rewrite lookup_none_buffers, size_handles.
    by rewrite decide_True by lia.
  - intros i Hi.
    destruct (lookup_lt_is_Some_2 filenames (Z.to_nat i)) as [b Hb]; [lia|].
    rewrite <- (Z2Nat.id i) by lia. rewrite (pending_init _ _ _ Hb).
    intros Hnil%lines_of_nil. rewrite Forall_forall in Hne.
    apply (Hne b); [|done]. by eapply list_elem_of_lookup_2.
Qed.

Lemma pending_init_all (filenames : list string) :
  pending (FilesArray_init (handles filenames))
    <$> seqZ 0 (Z.of_nat (length filenames))
  = lines_of <$> filenames.
Proof.
  apply list_eq. intros i. rewrite !list_lookup_fmap.
  destruct (filenames !! i) as [b|] eqn:Hb; simpl.
  - pose proof (lookup_lt_Some _ _ _ Hb) as Hlt.
    rewrite lookup_seqZ_lt by lia. simpl. f_equal. by apply pending_init.
  - apply lookup_ge_None in Hb. by rewrite lookup_seqZ_ge by lia.
Qed.

(** ** What is still to be written *)

Lemma remaining_0 (fa : FilesArray) : remaining fa 0 = [].
Proof. done. Qed.

Lemma remaining_succ (fa : FilesArray) (k : Z) :
  0 ≤ k → remaining fa (k + 1) = pending fa k ++ remaining fa k.
Proof.
  intros Hk. unfold remaining. rewrite seqZ_app by lia.
  rewrite (seqZ_cons _ 1), (seqZ_nil _ (Z.pred 1)) by lia.
  rewrite fmap_app, reverse_app. simpl. by rewrite Z.add_0_l.
Qed.

Lemma remaining_pred (fa : FilesArray) (k : Z) :
  0 < k → remaining fa k = pending fa (k - 1) ++ remaining fa (k - 1).
Proof.
  intros Hk. rewrite <- remaining_succ by lia. f_equal. lia.
Qed.

Lemma remaining_ext (fa fa' : FilesArray) (k : Z) :
  (∀ i, 0 ≤ i < k → pending fa' i = pending fa i) →
  remaining fa' k = remaining fa k.
Proof.
  intros Hp. unfold remaining. do 2 f_equal.
  apply list_fmap_ext. intros _ i Hi%list_elem_of_lookup_2%elem_of_seqZ.
  apply Hp. lia.
Qed.

(** ** One turn of the loop of [merge] *)

Lemma get_dict_loop (fa : FilesArray) (idx : list Z) (d : gmap Z (option string)) :
  (∀ i, i ∈ idx → is_Some (buffers fa !! i)) →
  ∃ d', for_each (get_dict_body fa) idx d = Ok d'
    ∧ ∀ i, d' !! i = if decide (i ∈ idx ∧ i ∉ empty fa) then buffers fa !! i
                     else d !! i.
Proof.
  revert d. induction idx as [|j idx IH]; intros d Hsome.
  { exists d. split; [done|]. intros i. rewrite decide_False; [done|].
    intros [[]%not_elem_of_nil _]. }
  destruct (Hsome j) as [v Hv]; [apply elem_of_cons; by left|].
  assert (∃ d1, get_dict_body fa d j = Ok d1
    ∧ ∀ i, d1 !! i = if decide (i = j ∧ i ∉ empty fa) then buffers fa !! i
                     else d !! i) as (d1 & Hbody & Hd1).
  { unfold get_dict_body. destruct (decide (j ∈ empty fa)) as [Hj|Hj].
    - exists d. split; [done|]. intros i. rewrite decide_False; [done|].
      by intros [-> ?].
    - rewrite (getitem_Some _ _ _ Hv). eexists. split; [done|]. intros i.
      destruct (decide (i = j)) as [->|Hne].
      + rewrite lookup_insert_eq. by rewrite decide_True.
      + rewrite lookup_insert_ne by done. rewrite decide_False; [done|].
        by intros [? _]. }
  destruct (IH d1) as (d' & Hloop & Hd').
  { intros i Hi. apply Hsome. apply elem_of_cons. by right. }
  exists d'. simpl. rewrite Hbody. split; [done|].
  intros i. rewrite Hd', Hd1.
  destruct (decide (i ∈ idx ∧ i ∉ empty fa)) as [[Hi He]|Hi].
  { rewrite decide_True; [done|]. split; [|done]. apply elem_of_cons. by right. }
  destruct (decide (i = j ∧ i ∉ empty fa)) as [[-> He]|Hj].
  { rewrite decide_True; [done|]. split; [|done]. apply elem_of_cons. by left. }
  rewrite decide_False; [done|]. intros [[->|?]%elem_of_cons ?]; tauto.
Qed.

Lemma get_dict_lookup (fa : FilesArray) :
  FilesArray_wf fa →
  ∃ choices, get_dict fa = Ok choices
    ∧ ∀ i, choices !! i
           = if decide (0 ≤ i < num_buffers fa ∧ i ∉ empty fa) then buffers fa !! i
             else None.
Proof.
  intros Hwf. destruct (get_dict_loop fa (seqZ 0 (num_buffers fa)) ∅)
    as (choices & Hloop & Hd).
  { intros i Hi%elem_of_seqZ. apply (wf_buffers _ Hwf). lia. }
  exists choices. split; [done|]. intros i. rewrite Hd, lookup_empty.
  destruct (decide (0 ≤ i < num_buffers fa ∧ i ∉ empty fa)) as [[??]|Hi].
  - rewrite decide_True; [done|]. rewrite elem_of_seqZ. split; [lia|done].
  - rewrite decide_False; [done|]. rewrite elem_of_seqZ. intros [??]. apply Hi.
    split; [lia|done].
Qed.

(** When the streams below [k] are the live ones, [get_dict] is keyed
    by them and [select] answers [k - 1]. *)
Lemma get_dict_select (fa : FilesArray) (n k : Z) :
  FilesArray_wf fa → num_buffers fa = n → 0 ≤ k ≤ n →
  (∀ i, i ∈ empty fa ↔ k ≤ i < n) →
  ∃ choices, get_dict fa = Ok choices
    ∧ dom choices = below k
    ∧ select py_lt choices = Ok (k - 1).
Proof.
  intros Hwf Hnum Hk Hempty.
  destruct (get_dict_lookup fa Hwf) as (choices & Hget & Hlook).
  assert (dom choices = below k) as Hdom.
  { apply set_eq. intros i. rewrite elem_of_dom, elem_of_below, Hlook, Hnum.
    destruct (decide (0 ≤ i < n ∧ i ∉ empty fa)) as [[Hi He]|Hi].
    - rewrite (wf_buffers _ Hwf), Hnum. rewrite Hempty in He. lia.
    - split; [by intros [? ?]|]. intros Hik. destruct Hi. rewrite Hempty. lia. }
  exists choices. split_and!; [done..|].
  rewrite select_last. by rewrite <- size_dom, Hdom, size_below by lia.
Qed.

Lemma dead_cell_refresh (fa : FilesArray) (i : Z) :
  i ∈ empty fa → refresh_cell (cell_of fa i) = cell_of fa i.
Proof.
  intros Hi. unfold cell_of. rewrite (bool_decide_eq_true_2 _ Hi).
  by destruct (buffers fa !! i) as [[?|]|], (files fa !! i).
Qed.

Lemma live_cell_refresh (fa : FilesArray) (n k i : Z) :
  merge_inv n k fa → 0 ≤ i < k →
  match pending fa i with
  | [] => refresh_cell (cell_of fa i) = (Some (Some ""), Some [], true)
  | l :: r => refresh_cell (cell_of fa i) = (Some (Some l), Some r, false) ∧ l ≠ ""
  end.
Proof.
  intros Hinv Hi. pose proof (inv_wf _ _ _ Hinv) as Hwf.
  pose proof (inv_k _ _ _ Hinv) as Hk. pose proof (inv_num _ _ _ Hinv) as Hnum.
  destruct (proj2 (wf_buffers _ Hwf i)) as [b Hb]; [lia|].
  destruct (proj2 (wf_files _ Hwf i)) as [f Hf]; [lia|].
  assert (i ∉ empty fa) as He by (rewrite (inv_empty _ _ _ Hinv); lia).
  pose proof (inv_buffer _ _ _ Hinv i Hi) as Hbuf.
  pose proof (wf_lines _ Hwf i f Hf) as Hlines.
  unfold pending, cell_of. rewrite Hb, Hf, (bool_decide_eq_false_2 _ He).
  destruct b as [l|]; simpl.
  - split; [done|]. intros ->. by rewrite Hb in Hbuf.
  - destruct f as [|l r]; simpl; [done|].
    apply Forall_cons_1 in Hlines as [Hl _].
    apply String.eqb_neq in Hl as Hl'. by rewrite Hl'.
Qed.

Lemma live_after_bounds (fa : FilesArray) (k : Z) :
  0 ≤ k → 0 ≤ live_after fa k ≤ k.
Proof. intros Hk. unfold live_after. case_decide; lia. Qed.

Lemma refresh_live (fa : FilesArray) (n k : Z) :
  merge_inv n k fa →
  ∃ fa1, refresh fa = Ok (fa1, bool_decide (0 < live_after fa k))
    ∧ FilesArray_wf fa1 ∧ num_buffers fa1 = n
    ∧ (∀ i, i ∈ empty fa1 ↔ live_after fa k ≤ i < n)
    ∧ (∀ i, 0 ≤ i < live_after fa k →
         ∃ l r, pending fa i = l :: r ∧ l ≠ ""
           ∧ buffers fa1 !! i = Some (Some l) ∧ files fa1 !! i = Some r).
Proof.
  intros Hinv. pose proof (inv_wf _ _ _ Hinv) as Hwf.
  pose proof (inv_k _ _ _ Hinv) as Hk. pose proof (inv_num _ _ _ Hinv) as Hnum.
  destruct (refresh_cells fa Hwf) as (fa1 & Hr & Hnum1 & Hcells).
  pose proof (refresh_cells_wf fa fa1 Hwf Hnum1 Hcells) as Hwf1.
  rewrite Hnum in *.
  assert (0 ≤ live_after fa k ≤ k) as Hla.
  { unfold live_after. case_decide; lia. }
  assert (∀ i, 0 ≤ i < live_after fa k →
    ∃ l r, pending fa i = l :: r ∧ l ≠ ""
      ∧ cell_of fa1 i = (Some (Some l), Some r, false)) as Hlive.
  { intros i Hi. assert (0 ≤ i < k) as Hik.
    { unfold live_after in Hi. case_decide; lia. }
    pose proof (live_cell_refresh fa n k i Hinv Hik) as Hcell.
    rewrite Hcells, decide_True by lia.
    destruct (pending fa i) as [|l r] eqn:Hp.
    - unfold live_after in Hi. case_decide as Hc.
      + destruct (inv_pending _ _ _ Hinv i); [lia|done].
      + destruct Hc. split; [lia|]. destruct (decide (i = k - 1)) as [->|]; [done|].
        destruct (inv_pending _ _ _ Hinv i); [lia|done].
    - destruct Hcell as [-> Hl]. by exists l, r. }
  assert (∀ i, i ∈ empty fa1 ↔ live_after fa k ≤ i < n) as Hempty.
  { intros i. destruct (decide (0 ≤ i < live_after fa k)) as [Hi|Hi].
    { destruct (Hlive i Hi) as (l & r & _ & _ & Hc). unfold cell_of in Hc.
      injection Hc as _ _ Hd. apply bool_decide_eq_false_1 in Hd. split; [done|lia]. }
    destruct (decide (0 ≤ i < n)) as [Hin|Hout].
    2: { split; [|lia]. intros Hi1. pose proof (wf_empty _ Hwf1 i Hi1). lia. }
    assert (live_after fa k ≤ i) as Hle by lia. split; [lia|]. intros _.
    assert ((cell_of fa1 i).2 = true) as Hc;
      [|by apply bool_decide_eq_true_1 in Hc].
    rewrite Hcells, decide_True by lia.
    destruct (decide (k ≤ i)) as [Hki|Hki].
    - assert (i ∈ empty fa) as He by (rewrite (inv_empty _ _ _ Hinv); lia).
      rewrite (dead_cell_refresh _ _ He). unfold cell_of. simpl.
      by apply bool_decide_eq_true_2.
    - unfold live_after in Hle. case_decide as Hc; [|lia].
      destruct Hc as [_ Hp]. assert (i = k - 1) as -> by lia.
      pose proof (live_cell_refresh fa n k (k - 1) Hinv) as Hcell.
      rewrite Hp in Hcell. by rewrite Hcell by lia. }
  exists fa1. split_and!; [|done..|].
  - rewrite Hr. do 2 f_equal.
    pose proof (all_exhausted fa1 (wf_num _ Hwf1) (wf_empty _ Hwf1)) as Hall.
    rewrite Hnum1 in Hall.
    destruct (decide (0 < live_after fa k)) as [Hpos|Hzero].
    + rewrite bool_decide_eq_true_2 by done. apply negb_true_iff, Z.eqb_neq.
      intros Hsize. apply Hall with (i := 0) in Hsize; [|lia].
      apply Hempty in Hsize. lia.
    + rewrite bool_decide_eq_false_2 by done. apply negb_false_iff, Z.eqb_eq.
      apply Hall. intros i Hi. apply Hempty. lia.
  - intros i Hi. destruct (Hlive i Hi) as (l & r & Hp & Hl & Hc).
    exists l, r. unfold cell_of in Hc. by injection Hc as -> -> _.
Qed.

Lemma unshift_wf (fa : FilesArray) (j : Z) :
  FilesArray_wf fa → is_Some (buffers fa !! j) →
  FilesArray_wf (set_buffers fa (<[j := None]> (buffers fa))).
Proof.
  intros Hwf Hj. split; simpl; try apply Hwf.
  intros i. rewrite lookup_insert_is_Some, <- (wf_buffers _ Hwf).
  split; [by intros [<-|[_ ?]]|].
  intros Hi. destruct (decide (j = i)); [by left|by right].
Qed.

Lemma remaining_live_after (fa : FilesArray) (k : Z) :
  remaining fa k = remaining fa (live_after fa k).
Proof.
  unfold live_after. case_decide as Hc; [|done]. destruct Hc as [Hk Hp].
  by rewrite (remaining_pred fa k), Hp by lia.
Qed.

Lemma merge_body_live (fa : FilesArray) (n k : Z) (out : string) :
  merge_inv n k fa → 0 < live_after fa k →
  ∃ l fa2, merge_body (fa, out) = Ok (Some (fa2, out +:+ l))
    ∧ merge_inv n (live_after fa k) fa2
    ∧ remaining fa k = l :: remaining fa2 (live_after fa k).
Proof.
  intros Hinv Hpos. pose proof (inv_k _ _ _ Hinv) as Hk.
  destruct (refresh_live fa n k Hinv) as (fa1 & Hr & Hwf1 & Hnum1 & Hempty & Hlive).
  pose proof (live_after_bounds fa k (proj1 Hk)) as Hk'.
  rewrite remaining_live_after. set (k' := live_after fa k) in *.
  destruct (get_dict_select fa1 n k' Hwf1 Hnum1) as (choices & Hget & _ & Hsel);
    [lia|done|].
  destruct (Hlive (k' - 1)) as (l & r & Hp & Hl & Hb & Hf); [lia|].
  pose (fa2 := set_buffers fa1 (<[k' - 1 := None]> (buffers fa1))).
  exists l, fa2.
  assert (∀ i, 0 ≤ i < k' - 1 → pending fa2 i = pending fa i) as Hsame.
  { intros i Hi. destruct (Hlive i) as (li & ri & Hpi & _ & Hbi & Hfi); [lia|].
    rewrite Hpi. unfold pending, fa2. simpl.
    rewrite lookup_insert_ne by lia. by rewrite Hbi, Hfi. }
  assert (pending fa2 (k' - 1) = r) as Htop.
  { unfold pending, fa2. simpl. by rewrite lookup_insert_eq, Hf. }
  split_and!.
  - unfold merge_body. rewrite Hr, (bool_decide_eq_true_2 _ Hpos). simpl.
    rewrite Hget. simpl. rewrite Hsel. simpl.
    unfold unshift. rewrite (getitem_Some _ _ _ Hb). done.
  - split; simpl.
    + apply unshift_wf; [done|]. by rewrite Hb.
    + done.
    + lia.
    + done.
    + intros i Hi. destruct (decide (i = k' - 1)) as [->|Hne].
      * by rewrite lookup_insert_eq.
      * rewrite lookup_insert_ne by done.
        destruct (Hlive i) as (li & ri & _ & Hli & Hbi & _); [lia|].
        rewrite Hbi. by intros [= ->].
    + intros i Hi. rewrite Hsame by lia.
      destruct (Hlive i) as (li & ri & -> & _); [lia|done].
  - rewrite (remaining_pred fa k'), (remaining_pred fa2 k') by lia.
    by rewrite Hp, Htop, (remaining_ext fa fa2 (k' - 1)).
Qed.

Lemma merge_body_done (fa : FilesArray) (n k : Z) (out : string) :
  merge_inv n k fa → ¬ 0 < live_after fa k →
  merge_body (fa, out) = Ok None ∧ remaining fa k = [].
Proof.
  intros Hinv Hpos. pose proof (inv_k _ _ _ Hinv) as Hk.
  destruct (refresh_live fa n k Hinv) as (fa1 & Hr & _). split.
  - unfold merge_body. by rewrite Hr, (bool_decide_eq_false_2 _ Hpos).
  - rewrite remaining_live_after.
    pose proof (live_after_bounds fa k (proj1 Hk)).
    assert (live_after fa k = 0) as -> by lia. done.
Qed.

Lemma merge_loop_S (fuel : nat) (st : FilesArray * string) :
  merge_loop (S fuel) st
  = (next ←! merge_body st;
     match next with
     | Some st' => merge_loop fuel st'
     | None => Ok (snd st)
     end).
Proof. reflexivity. Qed.

Lemma merge_loop_inv (fuel : nat) (fa : FilesArray) (n k : Z) (out : string) :
  merge_inv n k fa → (length (remaining fa k) < fuel)%nat →
  merge_loop fuel (fa, out) = Ok (out +:+ join (remaining fa k)).
Proof.
  revert fa k out. induction fuel as [|fuel IH]; intros fa k out Hinv Hfuel; [lia|].
  rewrite merge_loop_S. destruct (decide (0 < live_after fa k)) as [Hpos|Hpos].
  - destruct (merge_body_live fa n k out Hinv Hpos) as (l & fa2 & -> & Hinv2 & Hrem).
    simpl. rewrite Hrem in *. rewrite (IH _ _ _ Hinv2) by (simpl in Hfuel; lia).
    by rewrite join_cons, append_assoc.
  - destruct (merge_body_done fa n k out Hinv Hpos) as [-> ->]. simpl.
    by rewrite append_empty_r.
Qed.

Lemma merge_step_inv (n : Z) (st st' : FilesArray * string) :
  rtc merge_step st st' →
  (∃ k, merge_inv n k st.1) → ∃ k, merge_inv n k st'.1.
Proof.
  induction 1 as [|[fa out] [fa2 out2] st3 Hstep _ IH]; [done|].
  intros [k Hinv]. apply IH. unfold merge_step in Hstep.
  destruct (decide (0 < live_after fa k)) as [Hpos|Hpos].
  - destruct (merge_body_live fa n k out Hinv Hpos) as (l & fa2' & Hbody & Hinv2 & _).
    rewrite Hbody in Hstep. injection Hstep as <- _. by eexists.
  - destruct (merge_body_done fa n k out Hinv Hpos) as [Hbody _].
    by rewrite Hbody in Hstep.
Qed.

Lemma merge_inv_turn (fa fa1 : FilesArray) (n k : Z) :
  merge_inv n k fa → refresh fa = Ok (fa1, true) →
  ∃ k' choices, 0 < k' ≤ n
    ∧ (∀ i, 0 ≤ i < n → i ∉ empty fa1 ↔ i < k')
    ∧ get_dict fa1 = Ok choices
    ∧ dom choices = below k'
    ∧ select py_lt choices = Ok (k' - 1).
Proof.
  intros Hinv Hr1. pose proof (inv_k _ _ _ Hinv) as Hk.
  destruct (refresh_live fa n k Hinv) as (fa1' & Hr & Hwf1 & Hnum1 & Hempty & _).
  rewrite Hr in Hr1. injection Hr1 as -> Hpos. apply bool_decide_eq_true_1 in Hpos.
  pose proof (live_after_bounds fa k (proj1 Hk)) as Hk'.
  destruct (get_dict_select fa1 n (live_after fa k) Hwf1 Hnum1)
    as (choices & Hget & Hdom & Hsel); [lia|done|].
  exists (live_after fa k), choices. split_and!; [lia..| |done|done|done].
  intros i Hi. rewrite Hempty. lia.
Qed.

(** ** [merge] on the blocks of [split] *)

Lemma concat_reverse_perm {A} (ls : list (list A)) : concat (reverse ls) ≡ₚ concat ls.
Proof.
  induction ls as [|l ls IH]; [done|].
  rewrite reverse_cons, concat_app. simpl. rewrite app_nil_r, IH.
  apply Permutation_app_comm.
Qed.

Lemma map_res_open (filenames : list string) (buffer_size : Z) :
  c_int buffer_size = true →
  map_res (λ name, open_buffered (open_r name) buffer_size) filenames
  = Ok (open_r <$> filenames).
Proof.
  intros Hint. induction filenames as [|b filenames IH]; [done|].
  cbn [map_res]. unfold open_buffered at 1. rewrite Hint, IH. done.
Qed.

(** With a buffer size that [open] takes, [get_file_handles] returns
    the handles of the block files. *)
Lemma get_file_handles_handles (filenames : list string) (buffer_size : Z) :
  c_int buffer_size = true →
  get_file_handles filenames buffer_size = Ok (handles filenames).
Proof. intros Hint. unfold get_file_handles. by rewrite map_res_open. Qed.

(** [get_file_handles] returns nothing else. *)
Lemma get_file_handles_inv (filenames : list string) (buffer_size : Z)
    (files : gmap Z rfile) :
  get_file_handles filenames buffer_size = Ok files → files = handles filenames.
Proof.
  destruct (c_int buffer_size) eqn:Hint.
  - rewrite get_file_handles_handles by done. by intros [= <-].
  - destruct filenames as [|b filenames]; [by intros [= <-]|].
    unfold get_file_handles. cbn [map_res]. unfold open_buffered at 1.
    by rewrite Hint.
Qed.

(** [merge] raises [OverflowError] when it opens the output file with
    a buffer size that does not fit a C [int]; otherwise it enters its
    loop. *)
Lemma merge_enters_loop (filenames : list string) (buffer_size : Z) :
  merge filenames buffer_size
  = if c_int buffer_size
    then merge_loop (merge_fuel filenames) (merge_start filenames)
    else Raise OverflowError.
Proof.
  unfold merge, open_buffered. destruct (c_int buffer_size) eqn:Hint; [|done].
  cbn [bind]. by rewrite get_file_handles_handles.
Qed.

Lemma merge_reverse (filenames : list string) (buffer_size : Z) :
  c_int buffer_size = true →
  Forall (λ b, b ≠ "") filenames →
  merge filenames buffer_size = Ok (join (reverse filenames)).
Proof.
  intros Hint Hne. rewrite merge_enters_loop, Hint. unfold merge_start.
  rewrite (merge_loop_inv _ _ _ _ _ (merge_start_inv filenames Hne)).
  - unfold remaining. rewrite pending_init_all, append_nil_l.
    rewrite join_concat, <- fmap_reverse, <- list_fmap_compose. f_equal.
    rewrite <- (list_fmap_id (reverse filenames)) at 2. f_equal.
    apply list_fmap_ext. intros _ b _. simpl. apply join_lines_of.
  - unfold remaining, merge_fuel, open_r. rewrite pending_init_all.
    rewrite (Permutation_length (concat_reverse_perm _)).
    change (λ content : string, lines_of content) with lines_of. lia.
Qed.

(** C6, as the code has it. When the buffer size fits a C [int], as
    [open] wants it, and no block file is empty, as is the case of the
    blocks written by [split], [merge] returns and its output is the
    concatenation of the block files in descending index order; in
    every turn of its loop the streams that are not in [empty] after
    [refresh] are those below some [k], they are the keys of
    [get_dict], and [select] answers [k - 1], the highest of them. *)
Theorem merge_descending_blocks (filenames : list string) (buffer_size : Z) :
  - 2 ^ 31 ≤ buffer_size < 2 ^ 31 →
  Forall (λ b, b ≠ "") filenames →
  merge filenames buffer_size = Ok (join (reverse filenames))
  ∧ get_file_handles filenames buffer_size = Ok (handles filenames)
  ∧ ∀ fa out, rtc merge_step (merge_start filenames) (fa, out) →
      ∀ fa1, refresh fa = Ok (fa1, true) →
        ∃ k choices, 0 < k ≤ Z.of_nat (length filenames)
          ∧ (∀ i, 0 ≤ i < Z.of_nat (length filenames) → i ∉ empty fa1 ↔ i < k)
          ∧ get_dict fa1 = Ok choices
          ∧ dom choices = below k
          ∧ select py_lt choices = Ok (k - 1).
Proof.
  intros Hint%c_int_true Hne. split; [by apply merge_reverse|].
  split; [by apply get_file_handles_handles|].
  intros fa out Hreach fa1 Hr.
  destruct (merge_step_inv (Z.of_nat (length filenames)) _ _ Hreach) as [k Hinv].
  { eexists. by apply merge_start_inv. }
  by apply (merge_inv_turn fa fa1 _ k).
Qed.

Lemma merge_descending_blocks_witness :
  - 2 ^ 31 ≤ 1 < 2 ^ 31
  ∧ Forall (λ b : string, b ≠ "") [ln "a"; ln "b"]
  ∧ merge [ln "a"; ln "b"] 1 = Ok (join (reverse [ln "a"; ln "b"])).
Proof.
  assert (Forall (λ b : string, b ≠ "") [ln "a"; ln "b"]) as Hne.
  { by repeat constructor. }
  assert (- 2 ^ 31 ≤ 1 < 2 ^ 31) as Hint by lia.
  split; [done|]. split; [done|].
  exact (proj1 (merge_descending_blocks _ 1 Hint Hne)).
Defined.

(** C6, as stated, fails on an empty block file: stream 0 is in [empty]
    after the first [refresh] while stream 1 is not, [select] answers 0,
    and the second turn writes [None].  It also fails on a buffer size
    of 2^31, which [open] refuses. *)
Lemma merge_empty_block_raises :
  merge [""; ln "a"] 1 = Raise TypeError
  ∧ merge [""; ln "a"] 1 ≠ Ok (join (reverse [""; ln "a"]))
  ∧ merge [ln "a"; ln "b"] (2 ^ 31) = Raise OverflowError.
Proof. by vm_compute. Qed.

(** ** The whole sort *)

Lemma concat_fmap_perm {A} (f : list A → list A) (ls : list (list A)) :
  (∀ l, f l ≡ₚ l) → concat (f <$> ls) ≡ₚ concat ls.
Proof.
  intros Hf. induction ls as [|l ls IH]; [done|].
  simpl. by rewrite Hf, IH.
Qed.

Lemma join_nonempty (ls : list string) :
  ls ≠ [] → Forall (λ l, l ≠ "") ls → join ls ≠ "".
Proof.
  destruct ls as [|l ls]; [done|]. intros _ [Hl _]%Forall_cons_1.
  rewrite join_cons. by destruct l.
Qed.

Section SortFacts.
Context {K : Type} (ltK : K → K → bool).

Lemma sort_lines_permutation sort_key lines :
  sort_lines ltK sort_key lines ≡ₚ lines.
Proof. destruct sort_key; apply list_sort_perm. Qed.

(** The runs of a text whose lines are all terminated, once sorted. *)
Lemma sorted_chunks_terminated content block_size sort_key :
  terminated_text content = true →
  Forall (Forall (λ l, terminated l = true))
    (sort_lines ltK sort_key <$> chunks content block_size).
Proof.
  intros Hc%lines_of_terminated_text.
  rewrite <- (concat_chunks content block_size) in Hc.
  apply Forall_concat in Hc. apply Forall_fmap.
  eapply Forall_impl; [exact Hc|]. intros run Hrun. simpl.
  by rewrite sort_lines_permutation.
Qed.

Lemma sorted_chunks_nonempty content block_size sort_key :
  Forall (λ b, b ≠ "")
    ((λ c, join (sort_lines ltK sort_key c)) <$> chunks content block_size).
Proof.
  apply Forall_fmap. pose proof (concat_chunks content block_size) as Hcat.
  pose proof (lines_of_nonempty content) as Hne. rewrite <- Hcat in Hne.
  apply Forall_concat in Hne.
  pose proof (chunks_loop_nonempty (S (length (open_r content))) block_size
    (open_r content)) as Hchunks. fold (chunks content block_size) in Hchunks.
  rewrite Forall_forall in *. intros c Hc. simpl. apply join_nonempty.
  - intros Hnil. apply (Hchunks c Hc).
    apply Permutation_nil_r. by rewrite <- Hnil, sort_lines_permutation.
  - rewrite sort_lines_permutation. by apply Hne.
Qed.

(** With a positive block size that [readlines] takes and a buffer
    size that [open] takes, [sort] returns, and its output is the
    blocks of [split] in descending order. *)
Lemma sort_reverse_blocks block_size st_size content sort_key :
  0 < block_size < 2 ^ 63 →
  0 ≤ st_size →
  block_size / (st_size / block_size + 2) < 2 ^ 31 →
  sort ltK block_size st_size content sort_key
  = Ok (join (reverse ((λ c, join (sort_lines ltK sort_key c))
                         <$> chunks content block_size))).
Proof.
  intros Hbs Hst Hbuf. unfold sort, get_number_blocks, py_div.
  rewrite (proj2 (Z.eqb_neq block_size 0)) by lia. cbn [bind].
  rewrite split_chunks_long by lia. cbn [bind].
  assert (0 ≤ st_size / block_size) as Hq by (apply Z.div_pos; lia).
  rewrite (proj2 (Z.eqb_neq _ 0)) by lia. cbn [bind].
  replace (st_size / block_size + 1 + 1) with (st_size / block_size + 2) by lia.
  apply merge_reverse; [|apply sorted_chunks_nonempty].
  apply c_int_true. split; [|done].
  assert (0 ≤ block_size / (st_size / block_size + 2)); [|lia].
  apply Z.div_pos; lia.
Qed.
End SortFacts.

(** C3, as the code has it. With an input whose last record ends with
    the terminator, a positive block size that [readlines] takes
    (below 2^63) and a buffer size [block_size / (num_blocks + 1)] that
    [open] takes (below 2^31), [sort] returns and the records of its
    output are a permutation of those of the input, whatever the
    number of blocks and the size of the compressed file. *)
Theorem sort_preserves_records {K : Type} (ltK : K → K → bool)
    (block_size st_size : Z) (content : string)
    (sort_key : option (string → K)) :
  0 < block_size < 2 ^ 63 →
  0 ≤ st_size →
  block_size / (st_size / block_size + 2) < 2 ^ 31 →
  terminated_text content = true →
  ∃ out, sort ltK block_size st_size content sort_key = Ok out
    ∧ lines_of out ≡ₚ lines_of content.
Proof.
  intros Hbs Hst Hbuf Hterm. eexists. split; [by apply sort_reverse_blocks|].
  pose proof (sorted_chunks_terminated ltK content block_size sort_key Hterm) as Hruns.
  set (runs := sort_lines ltK sort_key <$> chunks content block_size) in *.
  assert ((λ c, join (sort_lines ltK sort_key c)) <$> chunks content block_size
          = join <$> runs) as ->.
  { unfold runs. by rewrite <- list_fmap_compose. }
  rewrite <- fmap_reverse, <- join_concat, lines_of_join.
  - rewrite concat_reverse_perm. unfold runs.
    rewrite concat_fmap_perm by apply sort_lines_permutation.
    by rewrite concat_chunks.
  - apply Forall_concat. by apply Forall_reverse.
Qed.

Lemma sort_preserves_records_witness :
  0 < 1 < 2 ^ 63
  ∧ 0 ≤ 43
  ∧ 1 / (43 / 1 + 2) < 2 ^ 31
  ∧ terminated_text (ln "b" +:+ ln "a") = true
  ∧ ∃ out, sort Z.ltb 1 43 (ln "b" +:+ ln "a") None = Ok out
      ∧ lines_of out ≡ₚ lines_of (ln "b" +:+ ln "a").
Proof.
  split; [lia|]. split; [lia|]. split; [by vm_compute|]. split; [reflexivity|].
  apply (sort_preserves_records Z.ltb 1 43 (ln "b" +:+ ln "a") None);
    [lia|lia|by vm_compute|reflexivity].
Defined.

(** C3, as stated, fails when the last line of the input has no
    terminator: sorted before a terminated line, it is glued to it in
    the block, and the output holds one record where the input held
    two, whatever the size of the compressed file.  It also fails with
    a block size of 4G on a file of less than 4G: the buffer size is
    2^31, [open] refuses it and [merge] writes nothing. *)
Lemma sort_unterminated_line_glued :
  (∀ st_size, 0 ≤ st_size →
     sort Z.ltb 100 st_size (ln "b" +:+ "a") None = Ok (ln "ab"))
  ∧ ¬ lines_of (ln "ab") ≡ₚ lines_of (ln "b" +:+ "a")
  ∧ (∀ st_size, 0 ≤ st_size < 2 ^ 32 →
     sort Z.ltb (2 ^ 32) st_size (ln "b" +:+ ln "a") None = Raise OverflowError).
Proof.
  split_and!.
  - intros st_size Hst. rewrite sort_reverse_blocks; [by vm_compute|lia|lia|].
    pose proof (Z.div_pos st_size 100). apply Z.div_lt_upper_bound; lia.
  - intros Hperm%Permutation_length. by vm_compute in Hperm.
  - intros st_size Hst. unfold sort, get_number_blocks, py_div.
    rewrite Z.div_small by lia. by vm_compute.
Qed.




(** C9. On an empty input the first [readlines] returns no line:
    [split] writes no block and [block_filenames] stays empty; [merge]
    over no block leaves its loop at once and the output is empty.
    This is so for every block size that [readlines] takes and every
    buffer size that [open] takes; with another size the call raises
    [OverflowError], and no block or output is written either. *)
Theorem empty_input_no_blocks {K : Type} (ltK : K → K → bool)
    (block_size buffer_size : Z) (sort_key : option (string → K)) :
  split ltK "" block_size sort_key
  = (if c_long block_size then Ok [] else Raise OverflowError)
  ∧ merge [] buffer_size
    = (if c_int buffer_size then Ok "" else Raise OverflowError).
Proof.
  split; [by rewrite split_chunks|].
  rewrite merge_enters_loop. by destruct (c_int buffer_size).
Qed.


(** * Further properties *)

(** ** The size of the runs of [split] *)

#[local] Arguments len : simpl never.
#[local] Arguments total_len : simpl never.


Lemma total_len_cons (l : string) (lines : list string) :
  total_len (l :: lines) = len l + total_len lines.
Proof. reflexivity. Qed.

Lemma len_nonneg (s : string) : 0 ≤ len s.
Proof. unfold len. lia. Qed.

Lemma len_pos (s : string) : s ≠ "" → 0 < len s.
Proof. destruct s; [done|]. unfold len. simpl String.length. lia. Qed.

Lemma len_append (a b : string) : len (a +:+ b) = len a + len b.
Proof.
  unfold len. induction a as [|c a IH]; [rewrite append_nil_l; simpl; lia|].
  rewrite append_String. simpl String.length. lia.
Qed.

Lemma total_len_nonneg (lines : list string) : 0 ≤ total_len lines.
Proof.
  induction lines as [|l lines IH]; [done|].
  rewrite total_len_cons. pose proof (len_nonneg l). lia.
Qed.


Lemma total_len_join (lines : list string) : len (join lines) = total_len lines.
Proof.
  induction lines as [|l lines IH]; [done|].
  by rewrite join_cons, len_append, IH.
Qed.

Lemma total_len_lines_of (s : string) : total_len (lines_of s) = len s.
Proof. by rewrite <- total_len_join, join_lines_of. Qed.

Lemma total_len_pos (lines : list string) :
  lines ≠ [] → Forall (λ l, l ≠ "") lines → 0 < total_len lines.
Proof.
  destruct lines as [|l lines]; [done|]. intros _ [Hl _]%Forall_cons_1.
  rewrite total_len_cons.
  pose proof (len_pos l Hl). pose proof (total_len_nonneg lines). lia.
Qed.

(** A file that fits in the size hint is read in one call. *)
Lemma readlines_from_all (sizehint total : Z) (f : list string) :
  total + total_len f ≤ sizehint →
  readlines_from sizehint total f = (f, []).
Proof.
  revert total. induction f as [|l f IH]; intros total Hfit; [done|].
  rewrite total_len_cons in Hfit. pose proof (total_len_nonneg f).
  cbn [readlines_from].
  destruct (sizehint <? total + len l) eqn:Hlt; [apply Z.ltb_lt in Hlt; lia|].
  rewrite andb_false_r. rewrite IH; [done|lia].
Qed.




Lemma chunks_loop_nil (fuel : nat) (block_size : Z) :
  chunks_loop fuel block_size [] = [].
Proof. by destruct fuel. Qed.

Lemma chunks_loop_step (fuel : nat) (block_size : Z) (f : list string) :
  chunks_loop (S fuel) block_size f
  = match readlines_from block_size 0 f with
    | ([], _) => []
    | (l :: ls, f') => (l :: ls) :: chunks_loop fuel block_size f'
    end.
Proof. simpl. by destruct (readlines_from block_size 0 f) as [[|l ls] f']. Qed.



Lemma chunks_single (content : string) (block_size : Z) :
  content ≠ "" → len content ≤ block_size →
  chunks content block_size = [lines_of content].
Proof.
  intros Hne Hfit. unfold chunks, open_r. rewrite chunks_loop_step.
  rewrite readlines_from_all.
  - destruct (lines_of content) as [|l ls] eqn:Hl.
    + by apply lines_of_nil in Hl.
    + by rewrite chunks_loop_nil.
  - rewrite total_len_lines_of. lia.
Qed.

Lemma chunks_empty (block_size : Z) : chunks "" block_size = [].
Proof. done. Qed.

(** ** The whole sort, continued *)

Lemma chars_append (a b : string) :
  list_ascii_of_string (a +:+ b) = list_ascii_of_string a ++ list_ascii_of_string b.
Proof.
  induction a as [|c a IH]; [done|]. rewrite append_String. simpl. by rewrite IH.
Qed.

Lemma chars_join_perm (ls1 ls2 : list string) :
  ls1 ≡ₚ ls2 →
  list_ascii_of_string (join ls1) ≡ₚ list_ascii_of_string (join ls2).
Proof.
  induction 1 as [|l ls1 ls2 _ IH|l1 l2 ls|ls1 ls2 ls3 _ IH1 _ IH2].
  - done.
  - by rewrite !join_cons, !chars_append, IH.
  - rewrite !join_cons, !chars_append, !app_assoc.
    f_equiv. apply Permutation_app_comm.
  - by etrans.
Qed.

(** X1. When the input fits in one block, [sort] sorts it: with a
    positive block size that the size of the text does not exceed, that
    [readlines] takes (below 2^63) and that gives a buffer size that
    [open] takes (below 2^31), and an input whose last record is
    terminated, the records of the output are those of the input,
    sorted by [list.sort]; they are non-decreasing under the ordering,
    and equal-ranked records keep their input order. *)
Theorem sort_one_block_sorted {K : Type} (ltK : K → K → bool)
    (block_size st_size : Z) (content : string)
    (sort_key : option (string → K)) :
  PyOrder ltK →
  0 < block_size < 2 ^ 63 →
  0 ≤ st_size →
  block_size / (st_size / block_size + 2) < 2 ^ 31 →
  len content ≤ block_size →
  terminated_text content = true →
  ∃ out, sort ltK block_size st_size content sort_key = Ok out
    ∧ lines_of out = sort_lines ltK sort_key (lines_of content)
    ∧ Sorted (line_le ltK sort_key) (lines_of out)
    ∧ ∀ z, filter (eqv_of (line_lt ltK sort_key) z) (lines_of out)
           = filter (eqv_of (line_lt ltK sort_key) z) (lines_of content).
Proof.
  intros Hord Hbs Hst Hbuf Hfit Hterm.
  assert (sort ltK block_size st_size content sort_key
          = Ok (join (sort_lines ltK sort_key (lines_of content)))) as Hsort.
  { rewrite sort_reverse_blocks by done. destruct (decide (content = "")) as [->|Hne].
    - rewrite chunks_empty. by destruct sort_key.
    - rewrite chunks_single by done. simpl. by rewrite ?join_cons, ?append_empty_r. }
  assert (lines_of (join (sort_lines ltK sort_key (lines_of content)))
          = sort_lines ltK sort_key (lines_of content)) as Hlines.
  { apply lines_of_join. rewrite sort_lines_permutation.
    by apply lines_of_terminated_text. }
  eexists. split; [exact Hsort|]. rewrite Hlines. split_and!.
  - done.
  - by apply sort_lines_Sorted.
  - intros z. by apply sort_lines_stable.
Qed.

Lemma sort_one_block_sorted_witness :
  PyOrder Z.ltb ∧ 0 < 100 < 2 ^ 63 ∧ 0 ≤ 45
  ∧ 100 / (45 / 100 + 2) < 2 ^ 31
  ∧ len (ln "b" +:+ ln "a" +:+ ln "c") ≤ 100
  ∧ terminated_text (ln "b" +:+ ln "a" +:+ ln "c") = true
  ∧ ∃ out, sort Z.ltb 100 45 (ln "b" +:+ ln "a" +:+ ln "c") None = Ok out
      ∧ lines_of out = sort_lines Z.ltb None (lines_of (ln "b" +:+ ln "a" +:+ ln "c")).
Proof.
  split; [apply Z_ltb_order|]. split; [lia|]. split; [lia|].
  split; [by vm_compute|]. split; [by vm_compute|]. split; [reflexivity|].
  destruct (sort_one_block_sorted Z.ltb 100 45 (ln "b" +:+ ln "a" +:+ ln "c") None
              Z_ltb_order) as (out & Hsort & Hlines & _);
    [lia|lia|by vm_compute|by vm_compute|reflexivity|].
  by exists out.
Defined.

(** X2. What [sort] returns, for every block size, size of the
    compressed file, text and key: [ZeroDivisionError] when the block
    size is 0 (raised by [get_number_blocks], before anything is read);
    otherwise [OverflowError] when the block size does not fit a C
    [long] (raised by the first [readlines] of [split]); otherwise
    [ZeroDivisionError] when [st_size / block_size + 2] is 0 (raised
    when [buffer_size] is computed, after the blocks are written; only
    negative block sizes get there); otherwise [OverflowError] when the
    buffer size does not fit a C [int] (raised by [merge] when it opens
    the output file); and otherwise the blocks written by [split],
    concatenated from the last one to the first. *)
Theorem sort_outcome {K : Type} (ltK : K → K → bool)
    (block_size st_size : Z) (content : string)
    (sort_key : option (string → K)) :
  ∃ blocks,
    split ltK content block_size sort_key
    = (if c_long block_size then Ok blocks else Raise OverflowError)
    ∧ sort ltK block_size st_size content sort_key
      = if block_size =? 0 then Raise ZeroDivisionError
        else if negb (c_long block_size) then Raise OverflowError
        else if st_size / block_size + 2 =? 0 then Raise ZeroDivisionError
        else if negb (c_int (block_size / (st_size / block_size + 2)))
        then Raise OverflowError
        else Ok (join (reverse blocks)).
Proof.
  eexists. split; [apply split_chunks|].
  unfold sort, get_number_blocks, py_div.
  destruct (block_size =? 0); [done|]. cbn [bind]. rewrite split_chunks.
  destruct (c_long block_size); [|done]. cbn [bind negb].
  replace (st_size / block_size + 1 + 1) with (st_size / block_size + 2)
    by lia.
  destruct (_ =? 0); [done|]. cbn [bind].
  destruct (c_int _) eqn:Hint; cbn [negb].
  - apply merge_reverse; [done|apply sorted_chunks_nonempty].
  - by rewrite merge_enters_loop, Hint.
Qed.

(** Two negative block sizes on an empty text whose compressed file has
    14 bytes: with -7 the number of blocks is -1 and the buffer size
    cannot be computed; with -2 it is -6, and the sort goes through. *)
Example sort_negative_block_size :
  sort Z.ltb (-7) 14 "" None = Raise ZeroDivisionError
  ∧ sort Z.ltb (-2) 14 "" None = Ok "".
Proof. by vm_compute. Qed.






Lemma length_chars (s : string) :
  length (list_ascii_of_string s) = String.length s.
Proof. induction s as [|c s IH]; simpl; [done|]. by rewrite IH. Qed.

(** X5. With a positive block size that [readlines] takes (below 2^63)
    and a buffer size that [open] takes (below 2^31), [sort] keeps
    every character of the input, whether its last line is terminated
    or not: the characters of the output are a rearrangement of those
    of the input, and the output has the size of the input. *)
Theorem sort_preserves_characters {K : Type} (ltK : K → K → bool)
    (block_size st_size : Z) (content : string)
    (sort_key : option (string → K)) :
  0 < block_size < 2 ^ 63 →
  0 ≤ st_size →
  block_size / (st_size / block_size + 2) < 2 ^ 31 →
  ∃ out, sort ltK block_size st_size content sort_key = Ok out
    ∧ list_ascii_of_string out ≡ₚ list_ascii_of_string content
    ∧ String.length out = String.length content.
Proof.
  intros Hbs Hst Hbuf. eexists. split; [by apply sort_reverse_blocks|].
  set (runs := sort_lines ltK sort_key <$> chunks content block_size).
  assert ((λ c, join (sort_lines ltK sort_key c)) <$> chunks content block_size
          = join <$> runs) as ->.
  { unfold runs. by rewrite <- list_fmap_compose. }
  assert (list_ascii_of_string (join (reverse (join <$> runs)))
          ≡ₚ list_ascii_of_string content) as Hperm.
  { rewrite (chars_join_perm _ (join <$> runs)) by apply reverse_Permutation.
    rewrite <- join_concat, <- (join_lines_of content) at 1.
    apply chars_join_perm. unfold runs.
    rewrite concat_fmap_perm by apply sort_lines_permutation.
    by rewrite concat_chunks. }
  split; [done|]. apply Permutation_length in Hperm.
  by rewrite !length_chars in Hperm.
Qed.

Lemma sort_preserves_characters_witness :
  0 < 1 < 2 ^ 63 ∧ 0 ≤ 41 ∧ 1 / (41 / 1 + 2) < 2 ^ 31
  ∧ ∃ out, sort Z.ltb 1 41 (ln "b" +:+ "a") None = Ok out
      ∧ list_ascii_of_string out ≡ₚ list_ascii_of_string (ln "b" +:+ "a")
      ∧ String.length out = String.length (ln "b" +:+ "a").
Proof.
  split; [lia|]. split; [lia|]. split; [by vm_compute|].
  apply (sort_preserves_characters Z.ltb 1 41 (ln "b" +:+ "a") None);
    [lia|lia|by vm_compute].
Defined.

(** X6. [merge] of a single block file copies it, whatever it holds,
    with every buffer size that [open] takes; with another one it
    raises [OverflowError]. *)
Theorem merge_single_block_copies (block : string) (buffer_size : Z) :
  merge [block] buffer_size
  = if c_int buffer_size then Ok block else Raise OverflowError.
Proof.
  destruct (c_int buffer_size) eqn:Hint; [|by rewrite merge_enters_loop, Hint].
  destruct (decide (block = "")) as [->|Hne].
  { rewrite merge_enters_loop, Hint. by vm_compute. }
  rewrite merge_reverse by (done || by repeat constructor).
  by rewrite reverse_singleton, join_cons, append_empty_r.
Qed.

(** ** [FilesArray], continued *)

Lemma FilesArray_ext (fa fa' : FilesArray) :
  num_buffers fa = num_buffers fa' →
  (∀ i, cell_of fa i = cell_of fa' i) →
  fa = fa'.
Proof.
  destruct fa as [fs e n bs], fa' as [fs' e' n' bs']. simpl.
  intros -> Hcells. unfold cell_of in Hcells. simpl in Hcells.
  assert (fs = fs') as ->.
  { apply map_eq. intros i. by injection (Hcells i). }
  assert (bs = bs') as ->.
  { apply map_eq. intros i. by injection (Hcells i). }
  assert (e = e') as ->; [|done].
  apply set_eq. intros i. injection (Hcells i) as Hd.
  by rewrite <- (bool_decide_eq_true (i ∈ e)), Hd, bool_decide_eq_true.
Qed.

Lemma refresh_cell_idemp (c : cell) : refresh_cell (refresh_cell c) = refresh_cell c.
Proof.
  destruct c as [[[[s|]|] [f|]] [|]]; simpl; try done.
  by destruct (readline f).
Qed.

(** X7. [refresh] is idempotent: right after a [refresh], a second one
    changes nothing and returns the same result. *)
Theorem refresh_twice (fa : FilesArray) :
  FilesArray_wf fa →
  ∃ (fa1 : FilesArray) (more : bool),
    refresh fa = Ok (fa1, more) ∧ refresh fa1 = Ok (fa1, more).
Proof.
  intros Hwf. destruct (refresh_cells fa Hwf) as (fa1 & Hr1 & Hnum1 & Hcells1).
  pose proof (refresh_cells_wf fa fa1 Hwf Hnum1 Hcells1) as Hwf1.
  destruct (refresh_cells fa1 Hwf1) as (fa2 & Hr2 & Hnum2 & Hcells2).
  assert (fa2 = fa1) as ->.
  { apply FilesArray_ext; [done|]. intros i. rewrite Hcells2, Hnum1.
    destruct (decide (0 ≤ i < num_buffers fa)) as [Hi|Hi]; [|done].
    specialize (Hcells1 i). rewrite decide_True in Hcells1 by done.
    by rewrite Hcells1, refresh_cell_idemp. }
  eexists _, _. split; [exact Hr1|]. by rewrite Hr2, Hnum1.
Qed.

Lemma refresh_twice_witness :
  let fa := FilesArray_init (handles [ln "a" +:+ ln "b"; ""]) in
  FilesArray_wf fa
  ∧ ∃ (fa1 : FilesArray) (more : bool),
      refresh fa = Ok (fa1, more) ∧ refresh fa1 = Ok (fa1, more).
Proof.
  intros fa. assert (FilesArray_wf fa) as Hwf by apply FilesArray_init_wf.
  split; [done|]. exact (refresh_twice fa Hwf).
Defined.

Lemma unshift_in_range (fa : FilesArray) (index : Z) :
  FilesArray_wf fa →
  if decide (0 ≤ index < num_buffers fa)
  then ∃ value, buffers fa !! index = Some value
         ∧ unshift fa index
           = Ok (set_buffers fa (<[index := None]> (buffers fa)), value)
  else unshift fa index = Raise KeyError.
Proof.
  intros Hwf. unfold unshift, getitem. case_decide as Hi.
  - destruct (proj2 (wf_buffers _ Hwf index) Hi) as [v Hv].
    exists v. by rewrite Hv.
  - destruct (buffers fa !! index) as [v|] eqn:Hv; [|done].
    destruct Hi. apply (wf_buffers _ Hwf). by rewrite Hv.
Qed.

Lemma FilesArray_step_wf (fa fa' : FilesArray) :
  FilesArray_wf fa → FilesArray_step fa fa' → FilesArray_wf fa'.
Proof.
  intros Hwf [more Hr|index value Hu]; [by eapply refresh_wf|].
  pose proof (unshift_in_range fa index Hwf) as Hcase. case_decide as Hi.
  - destruct Hcase as (v & Hv & Hu'). rewrite Hu' in Hu. injection Hu as <- _.
    apply unshift_wf; [done|]. by rewrite Hv.
  - by rewrite Hcase in Hu.
Qed.

(** X8. A [FilesArray] built by its constructor over the block files
    that [get_file_handles] has opened stays well-formed through any
    sequence of [refresh] and [unshift] calls; in every such state
    [refresh] and [get_dict] return, and [unshift] raises [KeyError]
    exactly on an index outside [range(num_buffers)]. *)
Theorem FilesArray_methods_safe (filenames : list string) (buffer_size : Z)
    (files : gmap Z rfile) (fa : FilesArray) :
  get_file_handles filenames buffer_size = Ok files →
  rtc FilesArray_step (FilesArray_init files) fa →
  FilesArray_wf fa
  ∧ num_buffers fa = Z.of_nat (length filenames)
  ∧ (∃ fa' more, refresh fa = Ok (fa', more))
  ∧ (∃ choices, get_dict fa = Ok choices)
  ∧ (∀ index, unshift fa index = Raise KeyError
              ↔ ¬ 0 ≤ index < Z.of_nat (length filenames))
  ∧ (∀ index, 0 ≤ index < Z.of_nat (length filenames) →
       ∃ value, unshift fa index
                = Ok (set_buffers fa (<[index := None]> (buffers fa)), value)).
Proof.
  intros ->%get_file_handles_inv Hreach.
  assert (FilesArray_wf fa ∧ num_buffers fa = Z.of_nat (length filenames))
    as [Hwf Hnum].
  { revert fa Hreach. apply rtc_ind_r.
    - split; [apply FilesArray_init_wf|apply size_handles].
    - intros fa1 fa2 _ Hstep [Hwf Hnum]. split; [by eapply FilesArray_step_wf|].
      destruct Hstep as [more Hr|index value Hu].
      + destruct (refresh_cells fa1 Hwf) as (fa' & Hr' & Hnum' & _).
        rewrite Hr' in Hr. injection Hr as <- _. congruence.
      + unfold unshift in Hu. destruct (getitem (buffers fa1) index); [|done..].
        simpl in Hu. by injection Hu as <- _. }
  split_and!; [done..| | | |].
  - destruct (refresh_cells fa Hwf) as (fa' & Hr & _). by eexists _, _.
  - destruct (get_dict_lookup fa Hwf) as (choices & Hget & _). by eexists.
  - intros index. pose proof (unshift_in_range fa index Hwf) as Hcase.
    rewrite <- Hnum. case_decide as Hi.
    + destruct Hcase as (v & _ & ->). split; [done|]. by intros [].
    + by rewrite Hcase.
  - intros index Hi. pose proof (unshift_in_range fa index Hwf) as Hcase.
    rewrite <- Hnum in Hi. rewrite decide_True in Hcase by done.
    destruct Hcase as (v & _ & Hu). by exists v.
Qed.

Lemma FilesArray_methods_safe_witness :
  let files := handles [ln "a"; ln "b"] in
  get_file_handles [ln "a"; ln "b"] 4096 = Ok files
  ∧ ∃ fa1 fa2,
      refresh (FilesArray_init files) = Ok (fa1, true)
      ∧ unshift fa1 1 = Ok (fa2, Some (ln "b"))
      ∧ rtc FilesArray_step (FilesArray_init files) fa2
      ∧ FilesArray_wf fa2
      ∧ ∃ fa' more, refresh fa2 = Ok (fa', more).
Proof.
  intros files.
  assert (get_file_handles [ln "a"; ln "b"] 4096 = Ok files) as Hopen
    by reflexivity.
  assert (∃ fa1 fa2, refresh (FilesArray_init files) = Ok (fa1, true)
                     ∧ unshift fa1 1 = Ok (fa2, Some (ln "b")))
    as (fa1 & fa2 & Hr & Hu).
  { eexists _, _. split; vm_compute; reflexivity. }
  assert (rtc FilesArray_step (FilesArray_init files) fa2) as Hreach.
  { eapply rtc_l; [exact (step_refresh _ _ _ Hr)|].
    eapply rtc_l; [exact (step_unshift _ _ _ _ Hu)|]. apply rtc_refl. }
  split; [done|]. exists fa1, fa2. split; [done|]. split; [done|]. split; [done|].
  destruct (FilesArray_methods_safe [ln "a"; ln "b"] 4096 files fa2 Hopen Hreach)
    as (Hwf & _ & Hrefresh & _).
  by split.
Defined.

(** ** [parse_memory] *)

Lemma last_char_snoc (s : string) (c : ascii) :
  last_char (s +:+ String c "") = Some c.
Proof.
  induction s as [|a s IH]; [done|]. rewrite append_String.
  cbn [last_char]. rewrite IH. destruct s; [done|]. by rewrite append_String.
Qed.

Lemma all_but_last_snoc (s : string) (c : ascii) :
  all_but_last (s +:+ String c "") = s.
Proof.
  induction s as [|a s IH]; [done|]. rewrite append_String.
  cbn [all_but_last]. rewrite IH. destruct s; [done|]. by rewrite append_String.
Qed.

Lemma parse_memory_snoc (int : string → option Z) (s : string) (c : ascii) :
  parse_memory int (s +:+ String c "")
  = if Ascii.eqb (lower c) "k" then int_then int (λ n, n * 1024) s
    else if Ascii.eqb (lower c) "m" then int_then int (λ n, n * 1024 * 1024) s
    else if Ascii.eqb (lower c) "g"
    then int_then int (λ n, n * 1024 * 1024 * 1024) s
    else int_or_raise int (s +:+ String c "").
Proof. unfold parse_memory. by rewrite last_char_snoc, all_but_last_snoc. Qed.

Lemma int_then_ext (int : string → option Z) (f g : Z → Z) (s : string) :
  (∀ n, f n = g n) → int_then int f s = int_then int g s.
Proof.
  intros Hfg. unfold int_then. destruct (int_or_raise int s); [done|].
  by rewrite Hfg.
Qed.

(** X9. [parse_memory] on an empty string raises [IndexError] (from
    [string[-1]], before [int] is tried).  On any other string, a
    final [k], [m] or [g], in either case, multiplies the integer that
    the rest of the string denotes by 2^10, 2^20 or 2^30, an error of
    [int] on that rest being the error of [parse_memory]; with any
    other final character the whole string goes to [int]. *)
Theorem parse_memory_units (int : string → option Z) (s : string) (c : ascii) :
  parse_memory int "" = inl IndexError
  ∧ parse_memory int (s +:+ String c "")
    = if bool_decide (c ∈ ["k"; "K"]%char) then int_then int (λ n, n * 2 ^ 10) s
      else if bool_decide (c ∈ ["m"; "M"]%char)
      then int_then int (λ n, n * 2 ^ 20) s
      else if bool_decide (c ∈ ["g"; "G"]%char)
      then int_then int (λ n, n * 2 ^ 30) s
      else int_or_raise int (s +:+ String c "").
Proof.
  split; [done|]. rewrite parse_memory_snoc.
  destruct c as [[] [] [] [] [] [] [] []];
    match goal with
    | |- context [Ascii.eqb (lower ?c) _] =>
        let b := eval vm_compute in (lower c) in change (lower c) with b
    end;
    cbn [Ascii.eqb Bool.eqb andb];
    match goal with
    | |- context [bool_decide (?c ∈ ["k"; "K"]%char)] =>
        let b1 := eval vm_compute in (bool_decide (c ∈ ["k"; "K"]%char)) in
        let b2 := eval vm_compute in (bool_decide (c ∈ ["m"; "M"]%char)) in
        let b3 := eval vm_compute in (bool_decide (c ∈ ["g"; "G"]%char)) in
        change (bool_decide (c ∈ ["k"; "K"]%char)) with b1;
        change (bool_decide (c ∈ ["m"; "M"]%char)) with b2;
        change (bool_decide (c ∈ ["g"; "G"]%char)) with b3
    end;
    cbv iota; try done; apply int_then_ext; intros n; lia.
Qed.

(** ** [merge] on arbitrary block files *)

Lemma cell_of_parts (fa : FilesArray) (i : Z) (b : option (option string))
    (f : option (list string)) (e : bool) :
  cell_of fa i = (b, f, e) →
  buffers fa !! i = b ∧ files fa !! i = f ∧ (i ∈ empty fa ↔ e = true).
Proof.
  unfold cell_of. intros [= <- <- <-]. split_and!; [done..|].
  by rewrite bool_decide_eq_true.
Qed.

Lemma elem_of_left_set (fa : FilesArray) (i : Z) :
  i ∈ left_set fa
  ↔ 0 ≤ i < num_buffers fa ∧ (i ∉ empty fa) ∧ pending fa i ≠ [].
Proof. unfold left_set. rewrite elem_of_filter, elem_of_below. tauto. Qed.

Lemma size_left_set (fa : FilesArray) :
  0 ≤ num_buffers fa → Z.of_nat (size (left_set fa)) ≤ num_buffers fa.
Proof.
  intros Hn. pose proof (size_below _ Hn) as Hsize.
  assert (size (left_set fa) ≤ size (below (num_buffers fa)))%nat; [|lia].
  apply subseteq_size. intros i Hi%elem_of_left_set.
  apply elem_of_below. tauto.
Qed.

Lemma tidy_cell_refresh (fa : FilesArray) (n i : Z) :
  tidy n fa → 0 ≤ i < n → i ∉ empty fa →
  match pending fa i with
  | [] => refresh_cell (cell_of fa i) = (Some (Some ""), Some [], true)
  | l :: r => refresh_cell (cell_of fa i) = (Some (Some l), Some r, false) ∧ l ≠ ""
  end.
Proof.
  intros Htidy Hi He. pose proof (tidy_wf _ _ Htidy) as Hwf.
  pose proof (tidy_num _ _ Htidy) as Hnum.
  destruct (proj2 (wf_buffers _ Hwf i)) as [b Hb]; [lia|].
  destruct (proj2 (wf_files _ Hwf i)) as [f Hf]; [lia|].
  pose proof (tidy_live _ _ Htidy i He) as Hbuf.
  pose proof (wf_lines _ Hwf i f Hf) as Hlines.
  unfold pending, cell_of. rewrite Hb, Hf, (bool_decide_eq_false_2 _ He).
  destruct b as [l|]; simpl.
  - split; [done|]. intros ->. by rewrite Hb in Hbuf.
  - destruct f as [|l r]; simpl; [done|].
    apply Forall_cons_1 in Hlines as [Hl _].
    apply String.eqb_neq in Hl as Hl'. by rewrite Hl'.
Qed.

Lemma tidy_refresh (fa : FilesArray) (n : Z) :
  tidy n fa →
  ∃ fa1, refresh fa = Ok (fa1, bool_decide (left_set fa ≠ ∅))
    ∧ FilesArray_wf fa1 ∧ num_buffers fa1 = n
    ∧ (∀ i, i ∈ empty fa1 ↔ 0 ≤ i < n ∧ i ∉ left_set fa)
    ∧ (∀ i, i ∈ empty fa1 → buffers fa1 !! i = Some (Some ""))
    ∧ (∀ i, i ∈ left_set fa →
         ∃ l r, pending fa i = l :: r ∧ l ≠ ""
           ∧ buffers fa1 !! i = Some (Some l) ∧ files fa1 !! i = Some r).
Proof.
  intros Htidy. pose proof (tidy_wf _ _ Htidy) as Hwf.
  pose proof (tidy_num _ _ Htidy) as Hnum.
  destruct (refresh_cells fa Hwf) as (fa1 & Hr & Hnum1 & Hcells).
  pose proof (refresh_cells_wf fa fa1 Hwf Hnum1 Hcells) as Hwf1.
  rewrite Hnum in *.
  assert (∀ i, i ∈ left_set fa →
    ∃ l r, pending fa i = l :: r ∧ l ≠ ""
      ∧ cell_of fa1 i = (Some (Some l), Some r, false)) as Hlive.
  { intros i (Hi & He & Hp)%elem_of_left_set. rewrite Hnum in Hi.
    pose proof (tidy_cell_refresh fa n i Htidy Hi He) as Hcell.
    rewrite Hcells, decide_True by done.
    destruct (pending fa i) as [|l r]; [done|].
    destruct Hcell as [-> Hl]. by exists l, r. }
  assert (∀ i, 0 ≤ i < n → i ∉ left_set fa →
    cell_of fa1 i = (Some (Some ""), (cell_of fa1 i).1.2, true)) as Hdead.
  { intros i Hi Hnl. rewrite Hcells, decide_True by done.
    destruct (decide (i ∈ empty fa)) as [He|He].
    - rewrite (dead_cell_refresh _ _ He). unfold cell_of. simpl.
      by rewrite (tidy_empty _ _ Htidy i He), (bool_decide_eq_true_2 _ He).
    - pose proof (tidy_cell_refresh fa n i Htidy Hi He) as Hcell.
      destruct (pending fa i) as [|l r] eqn:Hp; [by rewrite Hcell|].
      destruct Hnl. apply elem_of_left_set. rewrite Hnum, Hp. done. }
  assert (∀ i, i ∈ empty fa1 ↔ 0 ≤ i < n ∧ i ∉ left_set fa) as Hempty.
  { intros i. split.
    - intros Hi1. pose proof (wf_empty _ Hwf1 i Hi1) as Hin. split; [lia|].
      intros (l & r & _ & _ & Hc)%Hlive.
      apply cell_of_parts in Hc as (_ & _ & Hd). by apply Hd in Hi1.
    - intros [Hi Hnl]. pose proof (Hdead i Hi Hnl) as Hc.
      apply cell_of_parts in Hc as (_ & _ & Hd). by apply Hd. }
  exists fa1. split_and!; [|done..| |].
  - rewrite Hr. do 2 f_equal.
    pose proof (all_exhausted fa1 (wf_num _ Hwf1) (wf_empty _ Hwf1)) as Hall.
    rewrite Hnum1 in Hall.
    destruct (decide (left_set fa = ∅)) as [Hnone|Hsome].
    + rewrite bool_decide_eq_false_2 by (by intros []).
      apply negb_false_iff, Z.eqb_eq, Hall. intros i Hi. apply Hempty.
      split; [done|]. rewrite Hnone. apply not_elem_of_empty.
    + rewrite bool_decide_eq_true_2 by done. apply negb_true_iff, Z.eqb_neq.
      intros Hsize. apply Hsome, set_eq. intros i. split; [|by intros []%not_elem_of_empty].
      intros Hi. pose proof (proj1 (elem_of_left_set fa i) Hi) as [Hin _].
      rewrite Hnum in Hin. pose proof (proj1 Hall Hsize i Hin) as Hi1.
      apply Hempty in Hi1 as [_ Hnl]. done.
  - intros i Hi1. apply Hempty in Hi1 as [Hi Hnl].
    pose proof (Hdead i Hi Hnl) as Hc. by apply cell_of_parts in Hc as (? & _).
  - intros i Hi. destruct (Hlive i Hi) as (l & r & Hp & Hl & Hc).
    apply cell_of_parts in Hc as (? & ? & _). by exists l, r.
Qed.

Lemma get_dict_select_set (fa : FilesArray) (live : gset Z) :
  FilesArray_wf fa →
  (∀ i, i ∈ live ↔ 0 ≤ i < num_buffers fa ∧ i ∉ empty fa) →
  ∃ choices, get_dict fa = Ok choices
    ∧ dom choices = live
    ∧ select py_lt choices = Ok (Z.of_nat (size live) - 1).
Proof.
  intros Hwf Hlive.
  destruct (get_dict_lookup fa Hwf) as (choices & Hget & Hlook).
  assert (dom choices = live) as Hdom.
  { apply set_eq. intros i. rewrite elem_of_dom, Hlook, Hlive.
    destruct (decide (0 ≤ i < num_buffers fa ∧ i ∉ empty fa)) as [[Hi He]|Hi].
    - rewrite (wf_buffers _ Hwf). tauto.
    - split; [by intros [? ?]|done]. }
  exists choices. split_and!; [done..|].
  by rewrite select_last, <- size_dom, Hdom.
Qed.

Lemma sum_list_cons (x : nat) (xs : list nat) :
  sum_list (x :: xs) = (x + sum_list xs)%nat.
Proof. reflexivity. Qed.

Lemma sum_list_fmap_pred (f g : Z → nat) (idx : list Z) (j : Z) :
  NoDup idx → j ∈ idx →
  f j = S (g j) →
  (∀ i, i ∈ idx → i ≠ j → f i = g i) →
  sum_list (f <$> idx) = S (sum_list (g <$> idx)).
Proof.
  intros Hnd Hj Hfj Hother. induction idx as [|i idx IH]; [by apply elem_of_nil in Hj|].
  apply NoDup_cons in Hnd as [Hi Hnd]. rewrite !fmap_cons, !sum_list_cons.
  destruct (decide (i = j)) as [->|Hne].
  - rewrite Hfj. cbn [Nat.add]. do 3 f_equal. apply list_fmap_ext.
    intros _ k Hk%list_elem_of_lookup_2. apply Hother.
    + apply elem_of_cons. by right.
    + by intros ->.
  - rewrite (Hother i) by (done || apply elem_of_cons; by left).
    rewrite IH; [lia|done| |].
    + apply elem_of_cons in Hj as [->|Hj]; done.
    + intros k Hk. apply Hother, elem_of_cons. by right.
Qed.

(** A turn that serves a stream with a record left. *)
Lemma tidy_turn_serve (fa : FilesArray) (n : Z) (out : string) :
  tidy n fa →
  Z.of_nat (size (left_set fa)) - 1 ∈ left_set fa →
  ∃ l r fa2,
    pending fa (Z.of_nat (size (left_set fa)) - 1) = l :: r
    ∧ merge_body (fa, out) = Ok (Some (fa2, out +:+ l))
    ∧ tidy n fa2
    ∧ (∀ i, i ∈ empty fa2 ↔ 0 ≤ i < n ∧ i ∉ left_set fa)
    ∧ pending fa2 (Z.of_nat (size (left_set fa)) - 1) = r
    ∧ (∀ i, i ∈ left_set fa → i ≠ Z.of_nat (size (left_set fa)) - 1 →
         pending fa2 i = pending fa i).
Proof.
  intros Htidy Htop. set (j := Z.of_nat (size (left_set fa)) - 1) in *.
  destruct (tidy_refresh fa n Htidy)
    as (fa1 & Hr & Hwf1 & Hnum1 & Hempty & Hdead & Hlive).
  destruct (get_dict_select_set fa1 (left_set fa) Hwf1)
    as (choices & Hget & _ & Hsel).
  { intros i. rewrite Hempty, Hnum1, elem_of_left_set, (tidy_num _ _ Htidy).
    split; [|tauto]. intros (Hi & He & Hp). split; [done|]. intros [_ Hnl].
    by apply Hnl. }
  fold j in Hsel.
  destruct (Hlive j Htop) as (l & r & Hp & Hl & Hb & Hf).
  pose (fa2 := set_buffers fa1 (<[j := None]> (buffers fa1))).
  exists l, r, fa2. split_and!.
  - done.
  - unfold merge_body. rewrite Hr.
    rewrite bool_decide_eq_true_2 by (intros Hnone; by rewrite Hnone in Htop).
    simpl. rewrite Hget. simpl. rewrite Hsel. simpl.
    unfold unshift. by rewrite (getitem_Some _ _ _ Hb).
  - split; simpl.
    + apply unshift_wf; [done|]. by rewrite Hb.
    + done.
    + intros i Hi. assert (i ≠ j) as Hne.
      { intros ->. by apply Hempty in Hi as [_ ?]. }
      rewrite lookup_insert_ne by done. by apply Hdead.
    + intros i Hi. destruct (decide (i = j)) as [->|Hne].
      { by rewrite lookup_insert_eq. }
      rewrite lookup_insert_ne by done.
      destruct (decide (0 ≤ i < n)) as [Hin|Hout].
      * assert (i ∈ left_set fa) as Hil.
        { destruct (decide (i ∈ left_set fa)); [done|].
          destruct Hi. by apply Hempty. }
        destruct (Hlive i Hil) as (li & ri & _ & Hli & Hbi & _).
        rewrite Hbi. by intros [= ->].
      * intros Hbi. destruct Hout. rewrite <- Hnum1.
        apply (wf_buffers _ Hwf1). by rewrite Hbi.
  - done.
  - unfold pending, fa2. simpl. by rewrite lookup_insert_eq, Hf.
  - intros i Hi Hne. destruct (Hlive i Hi) as (li & ri & -> & _ & Hbi & Hfi).
    unfold pending, fa2. simpl. rewrite lookup_insert_ne by done.
    by rewrite Hbi, Hfi.
Qed.

Lemma gset_size_pos (X : gset Z) : X ≠ ∅ → (0 < size X)%nat.
Proof.
  intros [x Hx]%set_choose_L. destruct (size X) eqn:Hsize; [|lia].
  apply size_empty_iff in Hsize. by apply Hsize in Hx.
Qed.

Lemma refresh_cell_buffered (c : cell) (l : string) :
  c.1.1 = Some (Some l) → refresh_cell c = c.
Proof. destruct c as [[b f] e]. simpl. by intros ->. Qed.

(** A turn that picks a stream of [empty], and the turn after it. *)
Lemma tidy_turn_stuck (fa : FilesArray) (n : Z) (out : string) :
  tidy n fa →
  left_set fa ≠ ∅ →
  Z.of_nat (size (left_set fa)) - 1 ∉ left_set fa →
  ∃ fa2, merge_body (fa, out) = Ok (Some (fa2, out))
    ∧ merge_body (fa2, out) = Raise TypeError.
Proof.
  intros Htidy Hsome Htop. set (j := Z.of_nat (size (left_set fa)) - 1) in *.
  pose proof (tidy_num _ _ Htidy) as Hnum.
  pose proof (size_left_set fa (wf_num _ (tidy_wf _ _ Htidy))) as Hsize.
  pose proof (gset_size_pos _ Hsome) as Hpos.
  assert (0 ≤ j < n) as Hj by (unfold j; lia).
  destruct (tidy_refresh fa n Htidy)
    as (fa1 & Hr & Hwf1 & Hnum1 & Hempty & Hdead & Hlive).
  assert (∀ i, i ∈ left_set fa ↔ 0 ≤ i < num_buffers fa1 ∧ i ∉ empty fa1) as Hkeys.
  { intros i. rewrite Hempty, Hnum1. split.
    - intros Hi. pose proof (proj1 (elem_of_left_set fa i) Hi) as [Hin _].
      rewrite Hnum in Hin. tauto.
    - intros [Hin Hne]. destruct (decide (i ∈ left_set fa)); tauto. }
  destruct (get_dict_select_set fa1 (left_set fa) Hwf1 Hkeys)
    as (choices & Hget & _ & Hsel).
  fold j in Hsel.
  assert (j ∈ empty fa1) as Hj1 by (by apply Hempty).
  pose proof (Hdead j Hj1) as Hb.
  pose (fa2 := set_buffers fa1 (<[j := None]> (buffers fa1))).
  assert (FilesArray_wf fa2) as Hwf2.
  { apply unshift_wf; [done|]. by rewrite Hb. }
  exists fa2. split.
  { unfold merge_body. rewrite Hr, (bool_decide_eq_true_2 _ Hsome). simpl.
    rewrite Hget. simpl. rewrite Hsel. simpl.
    unfold unshift. rewrite (getitem_Some _ _ _ Hb). simpl.
    by rewrite append_empty_r. }
  destruct (refresh_cells fa2 Hwf2) as (fa3 & Hr3 & Hnum3 & Hcells3).
  assert (fa3 = fa2) as ->.
  { apply FilesArray_ext; [done|]. intros i. rewrite Hcells3.
    destruct (decide (0 ≤ i < num_buffers fa2)) as [Hi|Hi]; [|done].
    destruct (decide (i ∈ empty fa2)) as [He|He]; [by apply dead_cell_refresh|].
    assert (i ∈ left_set fa) as Hil by (by apply Hkeys).
    destruct (Hlive i Hil) as (l & r & _ & _ & Hbi & _).
    apply (refresh_cell_buffered _ l). unfold cell_of, fa2. simpl.
    rewrite lookup_insert_ne; [done|]. by intros <-. }
  assert (negb (Z.of_nat (size (empty fa2)) =? num_buffers fa2) = true) as Hmore.
  { apply negb_true_iff, Z.eqb_neq. intros Hall.
    pose proof (proj1 (all_exhausted fa2 (wf_num _ Hwf2) (wf_empty _ Hwf2)) Hall)
      as Hall'.
    apply set_choose_L in Hsome as [i Hi]. apply Hkeys in Hi as [Hin Hne].
    by apply Hne, Hall'. }
  destruct (get_dict_select_set fa2 (left_set fa) Hwf2 Hkeys)
    as (choices2 & Hget2 & _ & Hsel2).
  fold j in Hsel2.
  unfold merge_body. rewrite Hr3, Hmore. simpl. rewrite Hget2. simpl.
  rewrite Hsel2. simpl. unfold unshift, getitem, fa2. simpl.
  by rewrite lookup_insert_eq.
Qed.

Lemma serve_left_set (fa fa2 : FilesArray) (n j : Z) (r : list string) :
  tidy n fa → tidy n fa2 →
  j ∈ left_set fa →
  (∀ i, i ∈ empty fa2 ↔ 0 ≤ i < n ∧ i ∉ left_set fa) →
  pending fa2 j = r →
  (∀ i, i ∈ left_set fa → i ≠ j → pending fa2 i = pending fa i) →
  ∀ i, i ∈ left_set fa2 ↔ i ∈ left_set fa ∧ (i ≠ j ∨ r ≠ []).
Proof.
  intros Htidy Htidy2 Hj Hempty Hr Hsame i.
  rewrite (elem_of_left_set fa2), Hempty, (tidy_num _ _ Htidy2). split.
  - intros (Hin & Hne & Hp).
    assert (i ∈ left_set fa) as Hi by (destruct (decide (i ∈ left_set fa)); tauto).
    split; [done|]. destruct (decide (i = j)) as [->|Hij]; [|by left].
    right. by rewrite <- Hr.
  - intros [Hi Hcase]. pose proof (proj1 (elem_of_left_set fa i) Hi) as (Hin & _ & Hp).
    rewrite (tidy_num _ _ Htidy) in Hin. split; [lia|]. split; [tauto|].
    destruct (decide (i = j)) as [->|Hij].
    + rewrite Hr. by destruct Hcase.
    + by rewrite Hsame.
Qed.

Lemma serve_left_count (fa fa2 : FilesArray) (n j : Z) (l : string)
    (r : list string) :
  tidy n fa → tidy n fa2 →
  j ∈ left_set fa →
  (∀ i, i ∈ empty fa2 ↔ 0 ≤ i < n ∧ i ∉ left_set fa) →
  pending fa j = l :: r →
  pending fa2 j = r →
  (∀ i, i ∈ left_set fa → i ≠ j → pending fa2 i = pending fa i) →
  left_count fa = S (left_count fa2).
Proof.
  intros Htidy Htidy2 Hj Hempty Hp Hr Hsame. unfold left_count.
  rewrite (tidy_num _ _ Htidy), (tidy_num _ _ Htidy2).
  pose proof (proj1 (elem_of_left_set fa j) Hj) as (Hjn & Hje & _).
  rewrite (tidy_num _ _ Htidy) in Hjn.
  apply (sum_list_fmap_pred _ _ _ j).
  - apply NoDup_seqZ.
  - apply elem_of_seqZ. lia.
  - unfold weight. rewrite decide_False by done.
    rewrite decide_False by (rewrite Hempty; tauto). by rewrite Hp, Hr.
  - intros i Hi%elem_of_seqZ Hij. unfold weight.
    destruct (decide (i ∈ left_set fa)) as [Hil|Hil].
    + pose proof (proj1 (elem_of_left_set fa i) Hil) as (_ & Hie & _).
      rewrite decide_False by done.
      rewrite decide_False by (rewrite Hempty; tauto). by rewrite Hsame.
    + rewrite (decide_True (P := i ∈ empty fa2)) by (rewrite Hempty; split; [lia|done]).
      destruct (decide (i ∈ empty fa)) as [|Hie]; [done|].
      destruct (pending fa i) eqn:Hpi; [done|]. destruct Hil.
      apply elem_of_left_set. rewrite (tidy_num _ _ Htidy), Hpi.
      split; [lia|]. by split.
Qed.

Lemma below_0 : below 0 = ∅.
Proof. done. Qed.

Lemma below_succ (k : Z) : 0 ≤ k → below (k + 1) = {[k]} ∪ below k.
Proof.
  intros Hk. apply set_eq. intros i.
  rewrite elem_of_union, elem_of_singleton, !elem_of_below. lia.
Qed.

(** Once the streams that have records left are not the first ones,
    [merge] ends in [TypeError]. *)
Lemma tidy_raises (n : Z) (fuel : nat) (fa : FilesArray) (out : string) :
  tidy n fa →
  left_set fa ≠ below (Z.of_nat (size (left_set fa))) →
  (left_count fa + 2 ≤ fuel)%nat →
  merge_loop fuel (fa, out) = Raise TypeError.
Proof.
  revert fa out. induction fuel as [|fuel IH]; intros fa out Htidy Hnp Hfuel; [lia|].
  rewrite merge_loop_S.
  assert (left_set fa ≠ ∅) as Hsome.
  { intros Hnone. apply Hnp. rewrite Hnone, size_empty. reflexivity. }
  set (j := Z.of_nat (size (left_set fa)) - 1) in *.
  destruct (decide (j ∈ left_set fa)) as [Htop|Htop].
  - destruct (tidy_turn_serve fa n out Htidy Htop)
      as (l & r & fa2 & Hp & Hbody & Htidy2 & Hempty2 & Hr & Hsame).
    fold j in Hp, Hr, Hsame.
    pose proof (serve_left_set fa fa2 n j r Htidy Htidy2 Htop Hempty2 Hr Hsame)
      as Hset.
    pose proof (serve_left_count fa fa2 n j l r Htidy Htidy2 Htop Hempty2 Hp Hr Hsame)
      as Hcount.
    rewrite Hbody. simpl. apply IH; [done| |lia].
    intros Hpre. apply Hnp. destruct (decide (r = [])) as [Hnil|Hcons].
    + assert (left_set fa = {[j]} ∪ left_set fa2) as Hunion.
      { apply set_eq. intros i. rewrite elem_of_union, elem_of_singleton, Hset.
        destruct (decide (i = j)) as [->|Hij]; tauto. }
      assert (size (left_set fa) = S (size (left_set fa2))) as Hsize.
      { rewrite Hunion, size_union, size_singleton; [done|].
        intros i ->%elem_of_singleton [_ [?|?]]%Hset; done. }
      assert (Z.of_nat (size (left_set fa2)) = j) as Hj2 by (unfold j; lia).
      rewrite Hj2 in Hpre. rewrite Hunion at 1. rewrite Hpre.
      pose proof (proj1 (elem_of_left_set fa j) Htop) as [Hjn _].
      rewrite <- below_succ by lia. f_equal. unfold j. lia.
    + assert (left_set fa2 = left_set fa) as Heq.
      { apply set_eq. intros i. rewrite Hset. tauto. }
      by rewrite Heq in Hpre.
  - destruct (tidy_turn_stuck fa n out Htidy Hsome Htop) as (fa2 & Hbody & Hbody2).
    rewrite Hbody. simpl. destruct fuel as [|fuel]; [lia|].
    by rewrite merge_loop_S, Hbody2.
Qed.

(** *** The state in which [merge] starts, whatever the block files *)

Lemma init_tidy (filenames : list string) :
  tidy (Z.of_nat (length filenames)) (FilesArray_init (handles filenames)).
Proof.
  split.
  - apply FilesArray_init_wf.
  - apply size_handles.
  - intros i []%not_elem_of_empty.
  - intros i _. simpl. rewrite lookup_none_buffers. by case_decide.
Qed.

Lemma lines_of_eq_nil (b : string) : lines_of b = [] ↔ b = "".
Proof. split; [apply lines_of_nil|by intros ->]. Qed.

Lemma init_left_set (filenames : list string) (i : Z) :
  i ∈ left_set (FilesArray_init (handles filenames))
  ↔ 0 ≤ i ∧ ∃ b, filenames !! Z.to_nat i = Some b ∧ b ≠ "".
Proof.
  rewrite elem_of_left_set. simpl. rewrite size_handles. split.
  - intros (Hi & _ & Hp). split; [lia|].
    destruct (lookup_lt_is_Some_2 filenames (Z.to_nat i)) as [b Hb]; [lia|].
    exists b. split; [done|]. intros ->.
    rewrite <- (Z2Nat.id i), (pending_init _ _ _ Hb) in Hp by lia. done.
  - intros (Hi & b & Hb & Hne). pose proof (lookup_lt_Some _ _ _ Hb) as Hlt.
    split; [lia|]. split; [apply not_elem_of_empty|].
    rewrite <- (Z2Nat.id i), (pending_init _ _ _ Hb) by lia.
    by rewrite lines_of_eq_nil.
Qed.

Lemma length_concat_sum {A} (ls : list (list A)) :
  length (concat ls) = sum_list (length <$> ls).
Proof.
  induction ls as [|l ls IH]; [done|].
  simpl. by rewrite length_app, IH.
Qed.

Lemma init_left_count (filenames : list string) :
  left_count (FilesArray_init (handles filenames))
  = length (concat (lines_of <$> filenames)).
Proof.
  unfold left_count. rewrite length_concat_sum, <- pending_init_all.
  simpl num_buffers. rewrite size_handles, <- list_fmap_compose.
  reflexivity.
Qed.

Lemma remaining_trailing (fa : FilesArray) (k : Z) (d : nat) :
  0 ≤ k →
  (∀ i, k ≤ i < k + Z.of_nat d → pending fa i = []) →
  remaining fa (k + Z.of_nat d) = remaining fa k.
Proof.
  intros Hk. induction d as [|d IH]; intros Hnil.
  { f_equal. lia. }
  replace (k + Z.of_nat (S d)) with (k + Z.of_nat d + 1) by lia.
  rewrite remaining_succ by lia. rewrite Hnil by lia. simpl.
  apply IH. intros i Hi. apply Hnil. lia.
Qed.

Lemma remaining_init (filenames : list string) :
  join (remaining (FilesArray_init (handles filenames))
          (Z.of_nat (length filenames)))
  = join (reverse filenames)
  ∧ length (remaining (FilesArray_init (handles filenames))
              (Z.of_nat (length filenames)))
    = length (concat (lines_of <$> filenames)).
Proof.
  unfold remaining. rewrite pending_init_all. split.
  - rewrite join_concat, <- fmap_reverse, <- list_fmap_compose.
    rewrite <- (list_fmap_id (reverse filenames)) at 2. f_equal.
    apply list_fmap_ext. intros _ b _. simpl. apply join_lines_of.
  - apply Permutation_length, concat_reverse_perm.
Qed.

Lemma empties_last_true (filenames : list string) :
  empties_last filenames = true →
  ∃ m : nat, (m ≤ length filenames)%nat
    ∧ ∀ i b, filenames !! i = Some b → b ≠ "" ↔ (i < m)%nat.
Proof.
  induction filenames as [|b rest IH]; simpl.
  { intros _. exists 0%nat. split; [done|]. by intros i b. }
  destruct (String.eqb_spec b "") as [->|Hb].
  - intros Hall. exists 0%nat. split; [lia|]. intros [|i] b; simpl.
    + intros [= <-]. split; [done|lia].
    + intros Hb. rewrite forallb_forall in Hall.
      assert (b = "") as ->; [|split; [done|lia]].
      apply String.eqb_eq, Hall, list_elem_of_In. by eapply list_elem_of_lookup_2.
  - intros (m & Hm & Hlook)%IH. exists (S m). split; [lia|]. intros [|i] b'; simpl.
    + intros [= <-]. split; [lia|done].
    + intros Hb'. rewrite (Hlook i b' Hb'). lia.
Qed.

Lemma some_block_nonempty (rest : list string) :
  forallb (λ b', String.eqb b' "") rest = false →
  ∃ (j : nat) (b : string), rest !! j = Some b ∧ b ≠ "".
Proof.
  induction rest as [|b0 rest IH]; simpl; [done|].
  destruct (String.eqb_spec b0 "") as [->|Hb0]; simpl.
  - intros (j & b & Hj & Hb)%IH. by exists (S j), b.
  - intros _. by exists 0%nat, b0.
Qed.

Lemma empties_last_false (filenames : list string) :
  empties_last filenames = false →
  ∃ (i j : nat) (b : string),
    (i < j)%nat ∧ filenames !! i = Some "" ∧ filenames !! j = Some b ∧ b ≠ "".
Proof.
  induction filenames as [|b rest IH]; simpl; [done|].
  destruct (String.eqb_spec b "") as [->|Hb].
  - intros (j & b' & Hj & Hne)%some_block_nonempty.
    exists 0%nat, (S j), b'. split_and!; [lia|done..].
  - intros (i & j & b' & Hij & Hi & Hj & Hne)%IH.
    exists (S i), (S j), b'. split_and!; [lia|done..].
Qed.

Lemma join_all_empty (blocks : list string) :
  Forall (λ b, b = "") blocks → join blocks = "".
Proof.
  induction 1 as [|b blocks -> _ IH]; [done|]. by rewrite join_cons, IH.
Qed.

Lemma merge_empties_last (filenames : list string) (buffer_size : Z) :
  c_int buffer_size = true →
  empties_last filenames = true →
  merge filenames buffer_size = Ok (join (reverse filenames)).
Proof.
  intros Hint (m & Hm & Hlook)%empties_last_true.
  set (fa := FilesArray_init (handles filenames)).
  set (n := Z.of_nat (length filenames)).
  pose proof (init_tidy filenames) as Htidy. fold fa n in Htidy.
  destruct (remaining_init filenames) as [Hjoin Hlen]. fold fa n in Hjoin, Hlen.
  assert (left_set fa = below (Z.of_nat m)) as Hleft.
  { apply set_eq. intros i. unfold fa. rewrite init_left_set, elem_of_below. split.
    - intros (Hi & b & Hb & Hne). apply (Hlook _ _ Hb) in Hne. lia.
    - intros Hi. split; [lia|].
      destruct (lookup_lt_is_Some_2 filenames (Z.to_nat i)) as [b Hb]; [lia|].
      exists b. split; [done|]. apply (Hlook _ _ Hb). lia. }
  assert (Z.of_nat (size (left_set fa)) = Z.of_nat m) as Hsize.
  { rewrite Hleft. apply size_below. lia. }
  assert (remaining fa n = remaining fa (Z.of_nat m)) as Hrem.
  { replace n with (Z.of_nat m + Z.of_nat (length filenames - m)) by (unfold n; lia).
    apply remaining_trailing; [lia|]. intros i Hi.
    destruct (pending fa i) as [|l r] eqn:Hp; [done|].
    assert (i ∈ left_set fa) as Hil; [|rewrite Hleft, elem_of_below in Hil; lia].
    apply elem_of_left_set. rewrite Hp. unfold fa at 1 2. simpl.
    rewrite size_handles. split; [lia|]. split; [apply not_elem_of_empty|done]. }
  assert (merge_fuel filenames = (3 + length (remaining fa n))%nat) as Hfuel.
  { rewrite Hlen. reflexivity. }
  rewrite merge_enters_loop, Hint. unfold merge_start. fold fa.
  rewrite Hfuel, <- Hjoin, Hrem.
  destruct (decide (m = 0%nat)) as [->|Hpos].
  - destruct (tidy_refresh fa n Htidy) as (fa1 & Hr & _).
    rewrite bool_decide_eq_false_2 in Hr by (intros Hne; by apply Hne).
    cbn [Nat.add]. rewrite merge_loop_S. unfold merge_body. rewrite Hr. done.
  - assert (Z.of_nat (size (left_set fa)) - 1 ∈ left_set fa) as Htop.
    { rewrite Hsize, Hleft, elem_of_below. lia. }
    destruct (tidy_turn_serve fa n "" Htidy Htop)
      as (l & r & fa2 & Hp & Hbody & Htidy2 & Hempty2 & Hr & Hsame).
    rewrite Hsize in Hp, Hr, Hsame.
    assert (merge_inv n (Z.of_nat m) fa2) as Hinv.
    { split.
      - apply Htidy2.
      - apply Htidy2.
      - unfold n. lia.
      - intros i. rewrite Hempty2, Hleft, elem_of_below. lia.
      - intros i Hi. apply (tidy_live _ _ Htidy2). rewrite Hempty2, Hleft, elem_of_below.
        lia.
      - intros i Hi. rewrite Hsame.
        + assert (i ∈ left_set fa) as Hil by (rewrite Hleft, elem_of_below; lia).
          by apply elem_of_left_set in Hil as (_ & _ & ?).
        + rewrite Hleft, elem_of_below. lia.
        + lia. }
    assert (remaining fa (Z.of_nat m) = l :: remaining fa2 (Z.of_nat m)) as Hstep.
    { rewrite (remaining_pred fa), (remaining_pred fa2) by lia.
      rewrite Hp, Hr. simpl. f_equal. f_equal. symmetry. apply remaining_ext.
      intros i Hi. apply Hsame; [|lia]. rewrite Hleft, elem_of_below. lia. }
    cbn [Nat.add]. rewrite merge_loop_S, Hbody. cbn [bind].
    rewrite (merge_loop_inv _ _ _ _ _ Hinv).
    + rewrite Hstep. by rewrite join_cons, append_assoc.
    + rewrite Hstep. cbn [length]. lia.
Qed.

Lemma merge_empties_not_last (filenames : list string) (buffer_size : Z) :
  c_int buffer_size = true →
  empties_last filenames = false →
  merge filenames buffer_size = Raise TypeError.
Proof.
  intros Hint (i & j & b & Hij & Hi & Hj & Hb)%empties_last_false.
  rewrite merge_enters_loop, Hint. unfold merge_start.
  apply (tidy_raises (Z.of_nat (length filenames))).
  - apply init_tidy.
  - intros Hpre.
    set (X := left_set (FilesArray_init (handles filenames))) in *.
    assert (Z.of_nat j ∈ X) as HjX.
    { apply init_left_set. split; [lia|]. exists b. by rewrite Nat2Z.id. }
    rewrite Hpre, elem_of_below in HjX.
    assert (Z.of_nat i ∈ X) as HiX by (rewrite Hpre, elem_of_below; lia).
    apply init_left_set in HiX as (_ & b' & Hb' & Hne).
    rewrite Nat2Z.id, Hi in Hb'. by injection Hb' as <-.
  - rewrite init_left_count. unfold merge_fuel, open_r.
    change (λ content : string, lines_of content) with lines_of. lia.
Qed.

(** X10. What [merge] returns, for every list of block files and every
    buffer size: [OverflowError] when the buffer size does not fit a C
    [int] (raised when the output file is opened, before any block file
    is); otherwise, when no empty block file comes before a non-empty
    one, the block files concatenated from the last one to the first;
    otherwise [TypeError], from [outfile.write(None)].  In particular
    the loop of [merge] always ends. *)
Theorem merge_outcome (filenames : list string) (buffer_size : Z) :
  merge filenames buffer_size
  = if c_int buffer_size
    then if empties_last filenames then Ok (join (reverse filenames))
         else Raise TypeError
    else Raise OverflowError.
Proof.
  destruct (c_int buffer_size) eqn:Hint; [|by rewrite merge_enters_loop, Hint].
  destruct (empties_last filenames) eqn:Hlast.
  - by apply merge_empties_last.
  - by apply merge_empties_not_last.
Qed.

(** ** The blocks of [split], continued *)

(** X11. For every block size that [readlines] takes, positive or
    not, [split] returns; it writes no empty block, writes no block at
    all exactly when the input is empty, and the blocks, put end to
    end, hold the characters of the input, rearranged. *)
Theorem split_blocks_cover_input {K : Type} (ltK : K → K → bool)
    (block_size : Z) (content : string) (sort_key : option (string → K)) :
  - 2 ^ 63 ≤ block_size < 2 ^ 63 →
  ∃ blocks, split ltK content block_size sort_key = Ok blocks
    ∧ Forall (λ b, b ≠ "") blocks
    ∧ (blocks = [] ↔ content = "")
    ∧ list_ascii_of_string (join blocks) ≡ₚ list_ascii_of_string content.
Proof.
  intros Hlong. eexists. split; [by apply split_chunks_long|].
  split; [apply sorted_chunks_nonempty|].
  split.
  - split.
    + intros Hnil%fmap_nil_inv. apply lines_of_nil.
      by rewrite <- (concat_chunks content block_size), Hnil.
    + by intros ->.
  - rewrite (list_fmap_compose (sort_lines ltK sort_key) join), <- join_concat.
    rewrite <- (join_lines_of content) at 2. apply chars_join_perm.
    rewrite concat_fmap_perm by apply sort_lines_permutation.
    by rewrite concat_chunks.
Qed.

Lemma split_blocks_cover_input_witness :
  - 2 ^ 63 ≤ -1 < 2 ^ 63
  ∧ ∃ blocks, split Z.ltb (ln "b" +:+ "a") (-1) None = Ok blocks
      ∧ Forall (λ b, b ≠ "") blocks
      ∧ (blocks = [] ↔ ln "b" +:+ "a" = "").
Proof.
  split; [lia|].
  destruct (split_blocks_cover_input Z.ltb (-1) (ln "b" +:+ "a") None)
    as (blocks & Hsplit & Hne & Hnil & _); [lia|].
  by exists blocks.
Defined.

(** ** The block files on disk *)

Lemma append_inj_r (a b t : string) : a +:+ t = b +:+ t → a = b.
Proof.
  revert b. induction a as [|c a IH]; intros [|c' b].
  - done.
  - rewrite append_nil_l, append_String. intros Heq.
    apply (f_equal len) in Heq. unfold len in Heq. simpl String.length in Heq.
    pose proof (len_append b t) as Hlen. unfold len in Hlen. lia.
  - rewrite append_nil_l, append_String. intros Heq.
    apply (f_equal len) in Heq. unfold len in Heq. simpl String.length in Heq.
    pose proof (len_append a t) as Hlen. unfold len in Hlen. lia.
  - rewrite !append_String. intros [= -> Heq]. by rewrite (IH b Heq).
Qed.

Lemma block_filename_inj (i j : Z) : block_filename i = block_filename j → i = j.
Proof.
  unfold block_filename. intros Heq%String.app_inj.
  apply append_inj_r in Heq. by apply pretty.pretty_Z_inj in Heq.
Qed.

Lemma lookup_write_all_other (i : Z) (blocks : list string)
    (disk : gmap string string) (name : string) :
  (∀ k, (k < length blocks)%nat → name ≠ block_filename (i + Z.of_nat k)) →
  write_all i blocks disk !! name = disk !! name.
Proof.
  revert i disk. induction blocks as [|b blocks IH]; intros i disk Hname; [done|].
  simpl. rewrite IH.
  - apply lookup_insert_ne. intros Heq. apply (Hname 0%nat); [simpl; lia|].
    by rewrite Z.add_0_r.
  - intros k Hk. replace (i + 1 + Z.of_nat k) with (i + Z.of_nat (S k)) by lia.
    apply Hname. simpl. lia.
Qed.

Lemma lookup_write_all (i : Z) (blocks : list string)
    (disk : gmap string string) (k : nat) (b : string) :
  blocks !! k = Some b →
  write_all i blocks disk !! block_filename (i + Z.of_nat k) = Some b.
Proof.
  revert i disk k. induction blocks as [|b0 blocks IH]; intros i disk k; [done|].
  destruct k as [|k]; intros Hb; simpl in Hb; cbn [write_all].
  - injection Hb as ->. rewrite lookup_write_all_other.
    + rewrite Z.add_0_r. apply lookup_insert_eq.
    + intros k _ Heq%block_filename_inj. lia.
  - replace (i + Z.of_nat (S k)) with (i + 1 + Z.of_nat k) by lia.
    by apply IH.
Qed.

Lemma fmap_seqZ_succ {A} (f : Z → A) (i : Z) (n : nat) :
  f <$> seqZ i (Z.of_nat (S n)) = f i :: (f <$> seqZ (i + 1) (Z.of_nat n)).
Proof.
  rewrite seqZ_cons by lia. rewrite fmap_cons. do 2 f_equal.
  f_equal; lia.
Qed.

Section SplitterDiskFacts.
Context {K : Type} (ltK : K → K → bool).

Lemma split_disk_loop_chunks fuel block_size sort_key f i disk names :
  c_long block_size = true →
  (length f < fuel)%nat →
  let blocks := (λ c, join (sort_lines ltK sort_key c))
                  <$> chunks_loop fuel block_size f in
  split_disk_loop ltK fuel block_size sort_key f i (disk, names)
  = Ok (write_all i blocks disk,
        names ++ (block_filename <$> seqZ i (Z.of_nat (length blocks)))).
Proof.
  intros Hlong. revert f i disk names.
  induction fuel as [|fuel IH]; intros f i disk names Hf; [lia|].
  cbn [split_disk_loop chunks_loop]. unfold readlines. rewrite Hlong. cbn [bind].
  destruct (readlines_from block_size 0 f) as [ls f'] eqn:Hr.
  pose proof (readlines_from_app _ _ _ _ _ Hr) as ->.
  destruct ls as [|l ls].
  { cbn [fmap list_fmap length write_all]. by rewrite seqZ_nil, app_nil_r by done. }
  unfold write_block_disk. simpl. rewrite IH.
  - rewrite <- app_assoc. cbn [fmap list_fmap length].
    by rewrite fmap_seqZ_succ.
  - rewrite length_app in Hf. simpl in Hf. lia.
Qed.
End SplitterDiskFacts.

Lemma split_disk_unfold {K : Type} (ltK : K → K → bool)
    (content : string) (block_size : Z) (sort_key : option (string → K))
    (disk : gmap string string) :
  - 2 ^ 63 ≤ block_size < 2 ^ 63 →
  let blocks := (λ c, join (sort_lines ltK sort_key c))
                  <$> chunks content block_size in
  split_disk ltK content block_size sort_key disk
  = Ok (write_all 0 blocks disk,
        block_filename <$> seqZ 0 (Z.of_nat (length blocks))).
Proof.
  intros Hlong%c_long_true. unfold split_disk.
  by rewrite split_disk_loop_chunks by (done || lia).
Qed.

Lemma block_filenames_NoDup (n : nat) :
  NoDup (block_filename <$> seqZ 0 (Z.of_nat n)).
Proof.
  apply NoDup_fmap_2; [|apply NoDup_seqZ]. intros i j. apply block_filename_inj.
Qed.

Lemma elem_of_block_filenames (n : nat) (name : string) :
  name ∈ block_filename <$> seqZ 0 (Z.of_nat n)
  ↔ ∃ k, (k < n)%nat ∧ name = block_filename (Z.of_nat k).
Proof.
  rewrite list_elem_of_fmap. split.
  - intros (i & -> & Hi%elem_of_seqZ). exists (Z.to_nat i).
    split; [lia|]. f_equal. lia.
  - intros (k & Hk & ->). exists (Z.of_nat k). split; [done|].
    apply elem_of_seqZ. lia.
Qed.

(** X12. With a block size that [readlines] takes, [split] on a disk
    writes the blocks of [split] under the names [block_0.dat],
    [block_1.dat], ... in this order: the names that
    [get_block_filenames] returns are these, all different; each names
    the file that holds its block, and every file with another name is
    left as it was. *)
Theorem split_disk_blocks {K : Type} (ltK : K → K → bool)
    (content : string) (block_size : Z) (sort_key : option (string → K))
    (disk : gmap string string) :
  - 2 ^ 63 ≤ block_size < 2 ^ 63 →
  ∃ blocks disk' names,
    split ltK content block_size sort_key = Ok blocks
    ∧ split_disk ltK content block_size sort_key disk = Ok (disk', names)
    ∧ names = block_filename <$> seqZ 0 (Z.of_nat (length blocks))
    ∧ NoDup names
    ∧ (∀ i b, blocks !! i = Some b →
         names !! i = Some (block_filename (Z.of_nat i))
         ∧ disk' !! block_filename (Z.of_nat i) = Some b)
    ∧ (∀ name, name ∉ names → disk' !! name = disk !! name).
Proof.
  intros Hlong. eexists _, _, _. split; [by apply split_chunks_long|].
  split; [by apply split_disk_unfold|].
  set (blocks := (λ c, join (sort_lines ltK sort_key c)) <$> chunks content block_size).
  split_and!.
  - done.
  - apply block_filenames_NoDup.
  - intros i b Hb. pose proof (lookup_lt_Some _ _ _ Hb) as Hlt. split.
    + rewrite list_lookup_fmap, lookup_seqZ_lt by lia. simpl. by rewrite Z.add_0_l.
    + by apply (lookup_write_all 0 blocks disk i b).
  - intros name Hname. apply lookup_write_all_other. intros k Hk ->.
    apply Hname, elem_of_block_filenames. by exists k.
Qed.

Lemma split_disk_blocks_witness :
  - 2 ^ 63 ≤ 1 < 2 ^ 63
  ∧ ∃ blocks disk' names,
      split Z.ltb (ln "b" +:+ ln "a") 1 None = Ok blocks
      ∧ split_disk Z.ltb (ln "b" +:+ ln "a") 1 None ∅ = Ok (disk', names)
      ∧ names = block_filename <$> seqZ 0 (Z.of_nat (length blocks))
      ∧ length blocks = 2%nat.
Proof.
  split; [lia|].
  destruct (split_disk_blocks Z.ltb (ln "b" +:+ ln "a") 1 None ∅)
    as (blocks & disk' & names & Hsplit & Hdisk & Hnames & _); [lia|].
  exists blocks, disk', names. split; [done|]. split; [done|]. split; [done|].
  vm_compute in Hsplit. by injection Hsplit as <-.
Defined.

Lemma cleanup_all (names : list string) (disk : gmap string string) :
  NoDup names →
  (∀ name, name ∈ names → is_Some (disk !! name)) →
  ∃ disk', cleanup names disk = Removed disk'
    ∧ ∀ name, disk' !! name = if decide (name ∈ names) then None else disk !! name.
Proof.
  revert disk. induction names as [|f names IH]; intros disk Hnd Hsome.
  { exists disk. split; [done|]. intros name. rewrite decide_False; [done|].
    apply not_elem_of_nil. }
  apply NoDup_cons in Hnd as [Hf Hnd]. simpl.
  destruct (Hsome f) as [v Hv]; [apply elem_of_cons; by left|]. rewrite Hv.
  destruct (IH (delete f disk) Hnd) as (disk' & Hclean & Hlook).
  { intros name Hname. rewrite lookup_delete_ne by (by intros ->).
    apply Hsome. apply elem_of_cons. by right. }
  exists disk'. split; [done|]. intros name. rewrite Hlook.
  destruct (decide (name = f)) as [->|Hne].
  - rewrite decide_False by done. rewrite lookup_delete_eq.
    rewrite decide_True; [done|]. apply elem_of_cons. by left.
  - rewrite lookup_delete_ne by done.
    destruct (decide (name ∈ names)) as [Hin|Hout].
    + rewrite decide_True; [done|]. apply elem_of_cons. by right.
    + rewrite decide_False; [done|]. by intros [?|?]%elem_of_cons.
Qed.

(** X13. [cleanup] after a [split] that has returned (the block size
    is one that [readlines] takes) removes the block files and nothing
    else: it returns, no file is left under a block name (also when a
    file of that name was there before [split]), and every other file
    is as it was before [split].  A second [cleanup] raises [OSError],
    unless no block was written. *)
Theorem cleanup_after_split {K : Type} (ltK : K → K → bool)
    (content : string) (block_size : Z) (sort_key : option (string → K))
    (disk : gmap string string) :
  - 2 ^ 63 ≤ block_size < 2 ^ 63 →
  ∃ disk' names disk'',
    split_disk ltK content block_size sort_key disk = Ok (disk', names)
    ∧ cleanup names disk' = Removed disk''
    ∧ (∀ name, disk'' !! name = if decide (name ∈ names) then None else disk !! name)
    ∧ cleanup names disk''
      = match names with [] => Removed disk'' | _ :: _ => RaiseOSError disk'' end.
Proof.
  intros Hlong.
  pose proof (split_disk_unfold ltK content block_size sort_key disk Hlong)
    as Hsplit.
  set (blocks := (λ c, join (sort_lines ltK sort_key c)) <$> chunks content block_size)
    in *.
  set (names := block_filename <$> seqZ 0 (Z.of_nat (length blocks))) in *.
  cbv zeta in Hsplit.
  destruct (cleanup_all names (write_all 0 blocks disk)) as (disk'' & Hclean & Hlook).
  { apply block_filenames_NoDup. }
  { intros name (k & Hk & ->)%elem_of_block_filenames.
    destruct (lookup_lt_is_Some_2 blocks k Hk) as [b Hb].
    pose proof (lookup_write_all 0 blocks disk k b Hb) as Hw.
    rewrite Z.add_0_l in Hw. by rewrite Hw. }
  eexists _, names, disk''. split; [exact Hsplit|]. split; [done|]. split.
  - intros name. rewrite Hlook. destruct (decide (name ∈ names)) as [|Hout]; [done|].
    apply lookup_write_all_other. intros k Hk ->.
    apply Hout, elem_of_block_filenames. by exists k.
  - destruct names as [|f names'] eqn:Hnames; [done|]. simpl.
    rewrite Hlook. rewrite decide_True; [done|]. apply elem_of_cons. by left.
Qed.

Lemma cleanup_after_split_witness :
  - 2 ^ 63 ≤ 1 < 2 ^ 63
  ∧ ∃ disk' names disk'',
      split_disk Z.ltb (ln "b" +:+ ln "a") 1 None ∅ = Ok (disk', names)
      ∧ cleanup names disk' = Removed disk''
      ∧ (∀ name, disk'' !! name
                 = if decide (name ∈ names) then None else (∅ : gmap string string) !! name).
Proof.
  split; [lia|].
  destruct (cleanup_after_split Z.ltb (ln "b" +:+ ln "a") 1 None ∅)
    as (disk' & names & disk'' & Hsplit & Hclean & Hlook & _); [lia|].
  by exists disk', names, disk''.
Defined.

(** ** [refresh], then [get_dict] *)

Lemma refresh_cell_keeps_live (c : cell) :
  (c.2 = false → c.1.1 ≠ Some (Some "")) →
  (refresh_cell c).2 = false → (refresh_cell c).1.1 ≠ Some (Some "").
Proof.
  destruct c as [[[[s|]|] [f|]] [|]]; simpl; try done.
  intros _. destruct (readline f) as [line f']. simpl.
  intros Hline%String.eqb_neq. by intros [= ->].
Qed.

Lemma refresh_cell_fills (c : cell) :
  is_Some c.1.1 → is_Some c.1.2 →
  (c.2 = false → c.1.1 ≠ Some (Some "")) →
  (refresh_cell c).2 = false →
  ∃ l, (refresh_cell c).1.1 = Some (Some l) ∧ l ≠ "".
Proof.
  destruct c as [[[[s|]|] [f|]] [|]]; simpl; intros [? ?] [? ?] Hlive; try done.
  - intros _. exists s. split; [done|]. intros ->. by apply Hlive.
  - destruct (readline f) as [line f']. simpl.
    intros Hline%String.eqb_neq. by exists line.
Qed.

Lemma live_buffers_step (fa fa' : FilesArray) :
  FilesArray_wf fa →
  (∀ i, i ∉ empty fa → buffers fa !! i ≠ Some (Some "")) →
  FilesArray_step fa fa' →
  ∀ i, i ∉ empty fa' → buffers fa' !! i ≠ Some (Some "").
Proof.
  intros Hwf Hlive [more Hr|index value Hu] i Hi.
  - destruct (refresh_cells fa Hwf) as (fa1 & Hr1 & _ & Hcells).
    rewrite Hr1 in Hr. injection Hr as -> _.
    assert ((cell_of fa' i).2 = false → (cell_of fa' i).1.1 ≠ Some (Some "")) as Hc.
    { rewrite Hcells. assert ((cell_of fa i).2 = false
        → (cell_of fa i).1.1 ≠ Some (Some "")) as Hc0.
      { unfold cell_of. simpl. intros He%bool_decide_eq_false_1. by apply Hlive. }
      destruct (decide _); [|done]. by apply refresh_cell_keeps_live. }
    apply Hc. unfold cell_of. simpl. by apply bool_decide_eq_false_2.
  - unfold unshift in Hu. destruct (getitem (buffers fa) index); [|done..].
    simpl in Hu. injection Hu as <- _. simpl in *.
    destruct (decide (i = index)) as [->|Hne].
    + by rewrite lookup_insert_eq.
    + rewrite lookup_insert_ne by done. by apply Hlive.
Qed.

(** X14. In every state that a [FilesArray] over the block files that
    [get_file_handles] has opened reaches by [refresh] and [unshift]
    calls, a [refresh] followed by [get_dict] gives a dictionary that
    is keyed by the streams that are not in [empty], holds for each of
    them a record that is neither [None] nor [''], and is empty exactly
    when [refresh] returned [False]. *)
Theorem get_dict_after_refresh (filenames : list string) (buffer_size : Z)
    (files : gmap Z rfile) (fa : FilesArray) :
  get_file_handles filenames buffer_size = Ok files →
  rtc FilesArray_step (FilesArray_init files) fa →
  ∃ fa1 more choices,
    refresh fa = Ok (fa1, more)
    ∧ get_dict fa1 = Ok choices
    ∧ (∀ i, i ∈ dom choices ↔ 0 ≤ i < Z.of_nat (length filenames) ∧ i ∉ empty fa1)
    ∧ (∀ i v, choices !! i = Some v → ∃ l, v = Some l ∧ l ≠ "")
    ∧ (more = false ↔ choices = ∅).
Proof.
  intros ->%get_file_handles_inv Hreach.
  assert (FilesArray_wf fa ∧ num_buffers fa = Z.of_nat (length filenames)
          ∧ ∀ i, i ∉ empty fa → buffers fa !! i ≠ Some (Some ""))
    as (Hwf & Hnum & Hlive).
  { revert fa Hreach. apply rtc_ind_r.
    - split; [apply FilesArray_init_wf|]. split; [apply size_handles|].
      intros i _. simpl. rewrite lookup_none_buffers. by case_decide.
    - intros fa1 fa2 _ Hstep (Hwf & Hnum & Hlive).
      split; [by eapply FilesArray_step_wf|]. split; [|by eapply live_buffers_step].
      destruct Hstep as [more Hr|index value Hu].
      + destruct (refresh_cells fa1 Hwf) as (fa' & Hr' & Hnum' & _).
        rewrite Hr' in Hr. injection Hr as <- _. congruence.
      + unfold unshift in Hu. destruct (getitem (buffers fa1) index); [|done..].
        simpl in Hu. by injection Hu as <- _. }
  destruct (refresh_cells fa Hwf) as (fa1 & Hr & Hnum1 & Hcells).
  pose proof (refresh_cells_wf fa fa1 Hwf Hnum1 Hcells) as Hwf1.
  destruct (get_dict_lookup fa1 Hwf1) as (choices & Hget & Hlook).
  rewrite Hnum1, Hnum in Hlook. rewrite Hnum in Hcells, Hr.
  set (n := Z.of_nat (length filenames)) in *.
  assert (∀ i, 0 ≤ i < n → i ∉ empty fa1 →
    ∃ l, buffers fa1 !! i = Some (Some l) ∧ l ≠ "") as Hfilled.
  { intros i Hi He. specialize (Hcells i). rewrite decide_True in Hcells by done.
    destruct (refresh_cell_fills (cell_of fa i)) as (l & Hl & Hne).
    - apply (wf_buffers _ Hwf). lia.
    - apply (wf_files _ Hwf). lia.
    - unfold cell_of. simpl. intros He0%bool_decide_eq_false_1. by apply Hlive.
    - rewrite <- Hcells. unfold cell_of. simpl. by apply bool_decide_eq_false_2.
    - exists l. split; [|done]. rewrite <- Hcells in Hl. done. }
  eexists fa1, _, choices. split; [exact Hr|]. split; [done|]. split_and!.
  - intros i. rewrite elem_of_dom, Hlook.
    destruct (decide (0 ≤ i < n ∧ i ∉ empty fa1)) as [[Hi He]|Hi].
    + destruct (Hfilled i Hi He) as (l & -> & _). split; [done|by eauto].
    + split; [by intros [? ?]|done].
  - intros i v. rewrite Hlook.
    destruct (decide (0 ≤ i < n ∧ i ∉ empty fa1)) as [[Hi He]|Hi]; [|done].
    destruct (Hfilled i Hi He) as (l & -> & Hne). intros [= <-]. by exists l.
  - rewrite negb_false_iff, Z.eqb_eq.
    pose proof (all_exhausted fa1 (wf_num _ Hwf1) (wf_empty _ Hwf1)) as Hall1.
    rewrite Hnum1, Hnum in Hall1. rewrite Hall1.
    split.
    + intros Hall. apply map_eq. intros i. rewrite Hlook, lookup_empty.
      destruct (decide (0 ≤ i < n ∧ i ∉ empty fa1)) as [[Hi He]|Hi]; [|done].
      destruct He. by apply Hall.
    + intros -> i Hi. destruct (decide (i ∈ empty fa1)) as [|He]; [done|].
      specialize (Hlook i). rewrite lookup_empty, decide_True in Hlook by done.
      destruct (Hfilled i Hi He) as (l & Hl & _). congruence.
Qed.

Lemma get_dict_after_refresh_witness :
  let files := handles [ln "a"; ""] in
  get_file_handles [ln "a"; ""] 4096 = Ok files
  ∧ ∃ fa1 fa2,
      refresh (FilesArray_init files) = Ok (fa1, true)
      ∧ unshift fa1 0 = Ok (fa2, Some (ln "a"))
      ∧ rtc FilesArray_step (FilesArray_init files) fa2
      ∧ ∃ fa3 more choices,
          refresh fa2 = Ok (fa3, more) ∧ get_dict fa3 = Ok choices
          ∧ (more = false ↔ choices = ∅).
Proof.
  intros files.
  assert (get_file_handles [ln "a"; ""] 4096 = Ok files) as Hopen by reflexivity.
  assert (∃ fa1 fa2, refresh (FilesArray_init files) = Ok (fa1, true)
                     ∧ unshift fa1 0 = Ok (fa2, Some (ln "a")))
    as (fa1 & fa2 & Hr & Hu).
  { eexists _, _. split; vm_compute; reflexivity. }
  assert (rtc FilesArray_step (FilesArray_init files) fa2) as Hreach.
  { eapply rtc_l; [exact (step_refresh _ _ _ Hr)|].
    eapply rtc_l; [exact (step_unshift _ _ _ _ Hu)|]. apply rtc_refl. }
  split; [done|]. exists fa1, fa2. split; [done|]. split; [done|]. split; [done|].
  destruct (get_dict_after_refresh [ln "a"; ""] 4096 files fa2 Hopen Hreach)
    as (fa3 & more & choices & Hr3 & Hget & _ & _ & Hmore).
  by exists fa3, more, choices.
Defined.
